(** * macro_toggle: the macro player's step executor, hold tracker and runner

    A shallow embedding of [macro_toggle.py].  Python strings are byte
    strings here ([len], [strip] and [lower] act on ASCII), a step dictionary
    is a record of optional fields holding the JSON type the code converts
    them to, and every attempted call of the input backend (pydirectinput or
    pynput) and every [HoldState] operation is logged in a trace.  Console
    output ([print]) is not part of the state. *)

From Stdlib Require Import Ascii String QArith.
From stdpp Require Import gmap strings list pretty.

Local Open Scope Z_scope.

(** ** Python string helpers *)

Module PyStr.

(** [str.isspace] on an ASCII character: TAB..CR, FS..US and the blank. *)
Definition is_space (a : ascii) : bool :=
  let n := N_of_ascii a in
  ((9 <=? n) && (n <=? 13) || (28 <=? n) && (n <=? 32))%N.

Fixpoint lstrip (s : string) : string :=
  match s with
  | String a s' => if is_space a then lstrip s' else s
  | EmptyString => EmptyString
  end.

(** [s.strip()] *)
Definition strip (s : string) : string :=
  String.rev (lstrip (String.rev (lstrip s))).

Definition lower_ascii (a : ascii) : ascii :=
  let n := N_of_ascii a in
  if ((65 <=? n) && (n <=? 90))%N then ascii_of_N (n + 32) else a.

(** [s.lower()] *)
Fixpoint lower (s : string) : string :=
  match s with
  | String a s' => String (lower_ascii a) (lower s')
  | EmptyString => EmptyString
  end.

(** [s.startswith(p)], giving the rest of [s] after [p]. *)
Fixpoint after_prefix (p s : string) : option string :=
  match p, s with
  | EmptyString, _ => Some s
  | String a p', String b s' =>
      if decide (a = b) then after_prefix p' s' else None
  | String _ _, EmptyString => None
  end.

(** [s.split(sep, 1)] when it has two parts: the text before and after the
    first [sep]; [None] when [sep] does not occur (a one-element list). *)
Fixpoint split_once (sep : ascii) (s : string) : option (string * string) :=
  match s with
  | EmptyString => None
  | String a s' =>
      if decide (a = sep) then Some (EmptyString, s')
      else match split_once sep s' with
           | Some (l, r) => Some (String a l, r)
           | None => None
           end
  end.

(** [s.replace("Key.", "")]: every occurrence, left to right. *)
Fixpoint remove_Key_dot (s : string) : string :=
  match s with
  | String "K"%char (String "e"%char (String "y"%char (String "."%char rest))) =>
      remove_Key_dot rest
  | String a s' => String a (remove_Key_dot s')
  | EmptyString => EmptyString
  end.

End PyStr.

(** ** pydirectinput key and button names *)

(** [PDI_KEY_MAP], the literal followed by the [for i in range(1, 25)] loop. *)
Definition PDI_KEY_MAP : gmap string string :=
  foldl (fun m (i : nat) => <["Key.f" +:+ pretty i := "f" +:+ pretty i]> m)
    (list_to_map
       [ ("Key.enter", "enter"); ("Key.esc", "esc"); ("Key.tab", "tab");
         ("Key.space", "space"); ("Key.backspace", "backspace");
         ("Key.delete", "delete"); ("Key.home", "home"); ("Key.end", "end");
         ("Key.page_up", "pageup"); ("Key.page_down", "pagedown");
         ("Key.up", "up"); ("Key.down", "down"); ("Key.left", "left");
         ("Key.right", "right"); ("Key.shift", "shift");
         ("Key.shift_l", "shift"); ("Key.shift_r", "shift");
         ("Key.ctrl", "ctrl"); ("Key.ctrl_l", "ctrl"); ("Key.ctrl_r", "ctrl");
         ("Key.alt", "alt"); ("Key.alt_l", "alt"); ("Key.alt_r", "alt") ])
    (seq 1 24).

Definition to_pdi_key (raw : string) : string :=
  let raw := PyStr.strip raw in
  if decide (String.length raw = 1%nat) then raw
  else default (PyStr.remove_Key_dot raw) (PDI_KEY_MAP !! raw).

(** ** Exceptions *)

(** The reason carried by a [ValueError] of this module. *)
Inductive BadValue : Type :=
  | UnknownKeyName (s : string)      (* parse_key_pynput: no such Key member *)
  | BadKeySpec (s : string)          (* parse_key_pynput: not Key.xxx, not 1 char *)
  | BadButton                        (* to_pdi_button *)
  | BadKeyAction                     (* do_step: key.action *)
  | BadMouseButtonAction             (* do_step: mouse_button.action *)
  | BadMouseMoveMode                 (* do_step: mouse_move.mode *)
  | UnknownStepType (t : option string)  (* do_step: last line *)
  | UnpackError.                     (* kind, val = t.split(":", 1) *)

Definition to_pdi_button_opt (btn : string) : option string :=
  let b := PyStr.lower (PyStr.strip btn) in
  if decide (b = "left" ∨ b = "right" ∨ b = "middle") then Some b else None.

(** ** pynput values *)

(** A [pynput.keyboard.Key] member is named by its attribute; a [KeyCode]
    made by [KeyCode.from_char] by its character. *)
Inductive KeyLike : Type :=
  | Key (name : string)
  | KeyCode_from_char (c : string).

Inductive Button : Type := Button_left | Button_right | Button_middle.

(** [Button.left if b == "left" else (Button.right if b == "right" else
    Button.middle)] *)
Definition pynput_button (b : string) : Button :=
  if decide (b = "left") then Button_left
  else if decide (b = "right") then Button_right
  else Button_middle.

(** ** Backend calls *)

Inductive Call : Type :=
  | PDI_write (text : string)
  | PDI_press (k : string)
  | PDI_keyDown (k : string)
  | PDI_keyUp (k : string)
  | PDI_click (button : string) (clicks : Z)
  | PDI_mouseDown (button : string)
  | PDI_mouseUp (button : string)
  | PDI_moveRel (x y : Z)
  | PDI_moveTo (x y : Z)
  | PDI_scroll (dy : Z)
  | K_type (text : string)
  | K_press (key : KeyLike)
  | K_release (key : KeyLike)
  | M_click (btn : Button)
  | M_press (btn : Button)
  | M_release (btn : Button)
  | M_move (x y : Z)
  | M_set_position (x y : Z)
  | M_scroll (dx dy : Z).

Inductive Exn : Type :=
  | ValueError (why : BadValue)
  | KeyError (key : string)
  | BackendError (c : Call).

(** What the trace records: attempted backend calls and the operations of
    [HoldState]. *)
Inductive Event : Type :=
  | Backend (c : Call)
  | MarkDown (token : string)
  | MarkUp (token : string)
  | ReleaseAll (tokens : list string).

(** ** Steps and configuration *)

(** One entry of the ["macro"] list.  A field is [None] when the dictionary
    has no such key. *)
Record Step : Type := {
  step_type : option string;
  step_seconds : option Q;
  step_text : option string;
  step_key : option string;
  step_action : option string;
  step_keys : option (list string);
  step_button : option string;
  step_count : option Z;
  step_mode : option string;
  step_x : option Z;
  step_y : option Z;
  step_dx : option Z;
  step_dy : option Z;
}.

(** A dictionary with only the ["type"] key set. *)
Definition empty_step (t : string) : Step :=
  {| step_type := Some t; step_seconds := None; step_text := None;
     step_key := None; step_action := None; step_keys := None;
     step_button := None; step_count := None; step_mode := None;
     step_x := None; step_y := None; step_dx := None; step_dy := None |}.

(** [step] with ["action"] set to [a]. *)
Definition with_action (a : string) (step : Step) : Step :=
  {| step_type := step_type step; step_seconds := step_seconds step;
     step_text := step_text step; step_key := step_key step;
     step_action := Some a; step_keys := step_keys step;
     step_button := step_button step; step_count := step_count step;
     step_mode := step_mode step; step_x := step_x step;
     step_y := step_y step; step_dx := step_dx step;
     step_dy := step_dy step |}.

(** What the process fixes at import time and the behaviour of the input
    backend: [USE_PDI]; which names are attributes of [pynput.keyboard.Key];
    and whether a backend call returns ([true]) or raises, given everything
    that happened before it. *)
Class Platform : Type := {
  USE_PDI : bool;
  Key_attr : string → bool;
  backend_ok : list Event → Call → bool;
}.

(** ** Results and programs *)

Inductive Res (A : Type) : Type :=
  | Ok (a : A)
  | Err (e : Exn).
Arguments Ok {A} a.
Arguments Err {A} e.

(** The atomic actions of the code on the shared state.  [EBackend] answers
    whether the call returned; the program raises when it did not. *)
Inductive Eff : Type → Type :=
  | EBackend (c : Call) : Eff bool
  | EMarkDown (token : string) : Eff unit       (* with _lock: _held.add *)
  | EMarkUp (token : string) : Eff unit         (* with _lock: _held.discard *)
  | ESnapshotClear : Eff (list string)          (* with _lock: list(_held); clear *)
  | EIsSet : Eff bool                           (* stop_event.is_set() *)
  | ESet : Eff unit                             (* stop_event.set() *)
  | EWait (timeout : Q) : Eff unit              (* stop_event.wait(timeout) *)
  | ENotice : Eff unit.                         (* with lock: if is_running(): print *)

(** A Python body as the tree of its atomic actions. *)
Inductive Prog (A : Type) : Type :=
  | Ret (a : A)
  | Raise (e : Exn)
  | Vis {X : Type} (e : Eff X) (k : X → Prog A).
Arguments Ret {A} a.
Arguments Raise {A} e.
Arguments Vis {A X} e k.

Fixpoint bind {A B : Type} (p : Prog A) (f : A → Prog B) : Prog B :=
  match p with
  | Ret a => f a
  | Raise e => Raise e
  | Vis e k => Vis e (fun x => bind (k x) f)
  end.

(** [try: p  except Exception: h] *)
Fixpoint try_except {A : Type} (p : Prog A) (h : Exn → Prog A) : Prog A :=
  match p with
  | Ret a => Ret a
  | Raise e => h e
  | Vis e k => Vis e (fun x => try_except (k x) h)
  end.

Global Instance Prog_ret : MRet Prog := @Ret.
Global Instance Prog_bind : MBind Prog := fun A B f p => bind p f.

(** [for x in l: body(x)] *)
Fixpoint for_each {X : Type} (l : list X) (body : X → Prog unit) : Prog unit :=
  match l with
  | [] => Ret tt
  | x :: l' => body x;; for_each l' body
  end.

Definition lift {A : Type} (r : Res A) : Prog A :=
  match r with Ok a => Ret a | Err e => Raise e end.

(** [d[key]] *)
Definition getitem {A : Type} (key : string) (field : option A) : Prog A :=
  match field with Some a => Ret a | None => Raise (KeyError key) end.

Definition call (c : Call) : Prog unit :=
  Vis (EBackend c) (fun ok : bool => if ok then Ret tt else Raise (BackendError c)).
Definition mark_down (token : string) : Prog unit := Vis (EMarkDown token) Ret.
Definition mark_up (token : string) : Prog unit := Vis (EMarkUp token) Ret.
Definition is_set : Prog bool := Vis EIsSet Ret.
Definition set_stop : Prog unit := Vis ESet Ret.
Definition wait (timeout : Q) : Prog unit := Vis (EWait timeout) Ret.
Definition notice : Prog unit := Vis ENotice Ret.

(** ** Shared state *)

Record World : Type := {
  stop_event : bool;            (* MacroTool.stop_event *)
  held : gset string;           (* MacroTool._hold._held *)
  trace : list Event;
}.

Definition set_stop_event (b : bool) (w : World) : World :=
  {| stop_event := b; held := held w; trace := trace w |}.
Definition set_held (h : gset string) (w : World) : World :=
  {| stop_event := stop_event w; held := h; trace := trace w |}.
Definition log (ev : Event) (w : World) : World :=
  {| stop_event := stop_event w; held := held w; trace := trace w ++ [ev] |}.

Definition extend (evs : list Event) (w : World) : World :=
  {| stop_event := stop_event w; held := held w; trace := trace w ++ evs |}.

Definition handle `{Platform} {X : Type} (w : World) (e : Eff X) : World * X :=
  match e in Eff X return World * X with
  | EBackend c => (log (Backend c) w, backend_ok (trace w) c)
  | EMarkDown t => (log (MarkDown t) (set_held (held w ∪ {[t]}) w), tt)
  | EMarkUp t => (log (MarkUp t) (set_held (held w ∖ {[t]}) w), tt)
  | ESnapshotClear =>
      (log (ReleaseAll (elements (held w))) (set_held ∅ w), elements (held w))
  | EIsSet => (w, stop_event w)
  | ESet => (set_stop_event true w, tt)
  | EWait _ => (w, tt)
  | ENotice => (w, tt)
  end.

(** Running a program to its end with nothing else happening in between. *)
Fixpoint exec `{Platform} {A : Type} (w : World) (p : Prog A) : World * Res A :=
  match p with
  | Ret a => (w, Ok a)
  | Raise e => (w, Err e)
  | Vis e k => let '(w', x) := handle w e in exec w' (k x)
  end.

(** One atomic action of a program. *)
Definition prog_step `{Platform} {A : Type} (w : World) (p : Prog A)
  : World * Prog A :=
  match p with
  | Vis e k => let '(w', x) := handle w e in (w', k x)
  | _ => (w, p)
  end.

(** ** Key and button parsing *)

Definition parse_key_pynput `{Platform} (s : string) : Res KeyLike :=
  let s := PyStr.strip s in
  match PyStr.after_prefix "Key." s with
  | Some name =>
      if Key_attr name then Ok (Key name)
      else Err (ValueError (UnknownKeyName s))
  | None =>
      if decide (String.length s = 1%nat) then Ok (KeyCode_from_char s)
      else Err (ValueError (BadKeySpec s))
  end.

Definition to_pdi_button (btn : string) : Res string :=
  match to_pdi_button_opt btn with
  | Some b => Ok b
  | None => Err (ValueError BadButton)
  end.

(** [[f(x) for x in l]]: the first failure ends the comprehension. *)
Fixpoint mapM_res {A B : Type} (f : A → Res B) (l : list A) : Res (list B) :=
  match l with
  | [] => Ok []
  | x :: l' =>
      match f x with
      | Err e => Err e
      | Ok y => match mapM_res f l' with Err e => Err e | Ok ys => Ok (y :: ys) end
      end
  end.

(** ** HoldState.release_all *)

(** The body of the [try] for one token. *)
Definition release_token `{Platform} (t : string) : Prog unit :=
  match PyStr.split_once ":"%char t with
  | None => Raise (ValueError UnpackError)
  | Some (kind, val) =>
      if decide (kind = "key") then
        if USE_PDI then call (PDI_keyUp (to_pdi_key val))
        else key ← lift (parse_key_pynput val); call (K_release key)
      else if decide (kind = "mouse") then
        if USE_PDI then b ← lift (to_pdi_button val); call (PDI_mouseUp b)
        else call (M_release (pynput_button val))
      else Ret tt
  end.

Definition release_all `{Platform} : Prog unit :=
  Vis ESnapshotClear (fun tokens =>
    for_each tokens (fun t => try_except (release_token t) (fun _ => Ret tt))).

(** ** do_step *)

Definition key_token (raw : string) : string := "key:" +:+ raw.
Definition mouse_token (button : string) : string := "mouse:" +:+ button.

Definition do_step `{Platform} (step : Step) : Prog unit :=
  let t := step_type step in
  if decide (t = Some "wait") then
    wait (default 0%Q (step_seconds step))
  else
  stopped ← is_set;
  if (stopped : bool) then Ret tt else
  if decide (t = Some "text") then
    let text := default "" (step_text step) in
    if USE_PDI then call (PDI_write text) else call (K_type text)
  else if decide (t = Some "key") then
    raw ← getitem "key" (step_key step);
    let action := default "tap" (step_action step) in
    if USE_PDI then
      let k := to_pdi_key raw in
      let token := key_token raw in
      if decide (action = "tap") then call (PDI_press k)
      else if decide (action = "press") then
        call (PDI_keyDown k);; mark_down token
      else if decide (action = "release") then
        call (PDI_keyUp k);; mark_up token
      else Raise (ValueError BadKeyAction)
    else
      key ← lift (parse_key_pynput raw);
      let token := key_token raw in
      if decide (action = "tap") then call (K_press key);; call (K_release key)
      else if decide (action = "press") then
        call (K_press key);; mark_down token
      else if decide (action = "release") then
        call (K_release key);; mark_up token
      else Raise (ValueError BadKeyAction)
  else if decide (t = Some "combo") then
    let raw_keys := default [] (step_keys step) in
    if decide (raw_keys = []) then Ret tt
    else if USE_PDI then
      for_each raw_keys (fun rk => call (PDI_keyDown (to_pdi_key rk)));;
      for_each (reverse raw_keys) (fun rk => call (PDI_keyUp (to_pdi_key rk)))
    else
      keys ← lift (mapM_res parse_key_pynput raw_keys);
      for_each keys (fun k => call (K_press k));;
      for_each (reverse keys) (fun k => call (K_release k))
  else if decide (t = Some "mouse_click") then
    let button := default "left" (step_button step) in
    let count := default 1 (step_count step) in
    if USE_PDI then
      b ← lift (to_pdi_button button);
      call (PDI_click b (Z.max 1 count))
    else
      let btn := pynput_button button in
      for_each (seq 0 (Z.to_nat (Z.max 1 count))) (fun _ => call (M_click btn))
  else if decide (t = Some "mouse_button") then
    let button := default "left" (step_button step) in
    let action := default "tap" (step_action step) in
    let token := mouse_token button in
    if USE_PDI then
      b ← lift (to_pdi_button button);
      if decide (action = "tap") then call (PDI_click b 1)
      else if decide (action = "press") then
        call (PDI_mouseDown b);; mark_down token
      else if decide (action = "release") then
        call (PDI_mouseUp b);; mark_up token
      else Raise (ValueError BadMouseButtonAction)
    else
      let btn := pynput_button button in
      if decide (action = "tap") then call (M_click btn)
      else if decide (action = "press") then
        call (M_press btn);; mark_down token
      else if decide (action = "release") then
        call (M_release btn);; mark_up token
      else Raise (ValueError BadMouseButtonAction)
  else if decide (t = Some "mouse_move") then
    let mode := default "relative" (step_mode step) in
    let x := default 0 (step_x step) in
    let y := default 0 (step_y step) in
    if USE_PDI then
      if decide (mode = "relative") then call (PDI_moveRel x y)
      else if decide (mode = "absolute") then call (PDI_moveTo x y)
      else Raise (ValueError BadMouseMoveMode)
    else
      if decide (mode = "relative") then call (M_move x y)
      else if decide (mode = "absolute") then call (M_set_position x y)
      else Raise (ValueError BadMouseMoveMode)
  else if decide (t = Some "mouse_scroll") then
    let dx := default 0 (step_dx step) in
    let dy := default 0 (step_dy step) in
    if USE_PDI then
      if decide (dy ≠ 0) then call (PDI_scroll dy) else Ret tt
    else call (M_scroll dx dy)
  else Raise (ValueError (UnknownStepType t)).

(** ** MacroTool.stop, as seen from the shared state *)

Definition stop `{Platform} : Prog unit :=
  set_stop;; release_all;; notice.

(** ** MacroTool *)

(** The parsed ["macros.json"] handed to [MacroTool.__init__], its entries
    typed as the format has them: strings for the keys and hotkeys, a
    boolean, a list of steps; [None] is an entry that is missing. *)
Record Config : Type := {
  cfg_trigger_hotkey : option string;
  cfg_quit_hotkey : option string;
  cfg_trigger_key : option string;
  cfg_quit_key : option string;
  cfg_loop : option bool;
  cfg_macro : option (list Step);
}.

(** The fields [__init__] sets once and nothing changes afterwards. *)
Record MacroTool : Type := {
  trigger_hotkey : option string;
  quit_hotkey : option string;
  trigger_key : option KeyLike;
  quit_key : option KeyLike;
  loop : bool;
  macro : list Step;
}.

(** Where the body of [_run] stands.  The thread is alive until [PcExited];
    an exception that leaves [_run] is kept there: the interpreter's thread
    bootstrap hands it to [threading.excepthook] and the thread ends. *)
Inductive Pc : Type :=
  | PcWhile                                     (* while not stop_event.is_set() *)
  | PcFor (rest : list Step)                    (* for step in ...: if is_set(): break *)
  | PcStep (p : Prog unit) (rest : list Step)   (* inside do_step(step, ...) *)
  | PcFinally (p : Prog unit) (exn : option Exn) (* finally: inside release_all() *)
  | PcExited (exn : option Exn).

Record Sys : Type := {
  tool : MacroTool;
  world : World;
  threads : list Pc;        (* every Thread that start() made, oldest first *)
  thread : option nat;      (* MacroTool.thread, an index into [threads] *)
}.

Definition set_world (w : World) (s : Sys) : Sys :=
  {| tool := tool s; world := w; threads := threads s; thread := thread s |}.

(** [x if c else None] with the truth value of a string. *)
Definition if_truthy {A : Type} (field : option string) (f : string → Res A)
  : Res (option A) :=
  match field with
  | None => Ok None
  | Some s =>
      if decide (s = "") then Ok None
      else match f s with Ok a => Ok (Some a) | Err e => Err e end
  end.

Definition MacroTool_init `{Platform} (config : Config) : Res Sys :=
  match if_truthy (cfg_trigger_hotkey config) (fun s => Ok (PyStr.strip s)) with
  | Err e => Err e
  | Ok th =>
  match if_truthy (cfg_quit_hotkey config) (fun s => Ok (PyStr.strip s)) with
  | Err e => Err e
  | Ok qh =>
  match if_truthy (cfg_trigger_key config) parse_key_pynput with
  | Err e => Err e
  | Ok tk =>
  match if_truthy (cfg_quit_key config) parse_key_pynput with
  | Err e => Err e
  | Ok qk =>
      Ok {| tool := {| trigger_hotkey := th; quit_hotkey := qh;
                       trigger_key := tk; quit_key := qk;
                       loop := default false (cfg_loop config);
                       macro := default [] (cfg_macro config) |};
            world := {| stop_event := false; held := ∅; trace := [] |};
            threads := [];
            thread := None |}
  end end end end.

Definition is_alive (pc : Pc) : bool :=
  match pc with PcExited _ => false | _ => true end.

Definition is_running (s : Sys) : bool :=
  match thread s with
  | None => false
  | Some i => match threads s !! i with Some pc => is_alive pc | None => false end
  end.

(** ** MacroTool._run, one atomic action at a time *)

Definition _run_start (t : MacroTool) : Pc :=
  if loop t then PcWhile else PcFor (macro t).

Definition _run_break `{Platform} (t : MacroTool) : Pc :=
  if loop t then PcWhile else PcFinally release_all None.

Definition _run_step `{Platform} (t : MacroTool) (w : World) (pc : Pc)
  : World * Pc :=
  match pc with
  | PcWhile =>
      if stop_event w then (w, PcFinally release_all None)
      else (w, PcFor (macro t))
  | PcFor [] => (w, _run_break t)
  | PcFor (step :: rest) =>
      if stop_event w then (w, _run_break t)
      else (w, PcStep (do_step step) rest)
  | PcStep (Ret _) rest => (w, PcFor rest)
  | PcStep (Raise e) rest => (w, PcFinally release_all (Some e))
  | PcStep p rest => let '(w', p') := prog_step w p in (w', PcStep p' rest)
  | PcFinally (Ret _) exn => (w, PcExited exn)
  | PcFinally (Raise e) _ => (w, PcExited (Some e))
  | PcFinally p exn => let '(w', p') := prog_step w p in (w', PcFinally p' exn)
  | PcExited exn => (w, PcExited exn)
  end.

(** Thread [i] performs its next atomic action. *)
Definition bg_step `{Platform} (i : nat) (s : Sys) : Sys :=
  match threads s !! i with
  | None => s
  | Some pc =>
      let '(w', pc') := _run_step (tool s) (world s) pc in
      {| tool := tool s; world := w'; threads := <[i := pc']> (threads s);
         thread := thread s |}
  end.

Definition bg_steps `{Platform} (tids : list nat) (s : Sys) : Sys :=
  foldl (fun s i => bg_step i s) s tids.

(** ** The control operations *)

(** [MacroTool.start]: one atomic block under [self.lock]. *)
Definition start (s : Sys) : Sys :=
  if is_running s then s
  else {| tool := tool s;
          world := set_stop_event false (world s);
          threads := threads s ++ [_run_start (tool s)];
          thread := Some (length (threads s)) |}.

(** A control operation run against the system while the background threads
    move: before each atomic action of [p], and before it returns, the
    threads listed next in [sched] each perform one action. *)
Fixpoint run_ctl `{Platform} {A : Type} (sched : list (list nat)) (s : Sys)
    (p : Prog A) : Sys * Res A :=
  let s := bg_steps (hd [] sched) s in
  match p with
  | Ret a => (s, Ok a)
  | Raise e => (s, Err e)
  | Vis e k =>
      let '(w', x) := handle (world s) e in
      run_ctl (tl sched) (set_world w' s) (k x)
  end.

(** [MacroTool.stop] *)
Definition stop_sys `{Platform} (sched : list (list nat)) (s : Sys)
  : Sys * Res unit :=
  run_ctl sched s stop.

(** [MacroTool.toggle] *)
Definition toggle `{Platform} (sched : list (list nat)) (s : Sys) : Sys :=
  if is_running s then (stop_sys sched s).1
  else start (bg_steps (hd [] sched) s).

(** [MacroTool.request_quit]: [stop], then the hotkey listener is told to
    stop (the listener is not part of the state). *)
Definition request_quit `{Platform} (sched : list (list nat)) (s : Sys)
  : Sys * Res unit :=
  stop_sys sched s.

(** What can happen next: a control operation called with the thread actions
    that interleave with it, or one action of a thread. *)
Inductive Ev : Type :=
  | EvStart
  | EvStop (sched : list (list nat))
  | EvToggle (sched : list (list nat))
  | EvQuit (sched : list (list nat))
  | EvBg (i : nat).

Definition sys_step `{Platform} (s : Sys) (ev : Ev) : Sys :=
  match ev with
  | EvStart => start s
  | EvStop sched => (stop_sys sched s).1
  | EvToggle sched => toggle sched s
  | EvQuit sched => (request_quit sched s).1
  | EvBg i => bg_step i s
  end.

Definition run_events `{Platform} (s : Sys) (evs : list Ev) : Sys :=
  foldl sys_step s evs.

(** States the system can be in after construction. *)
Definition reachable `{Platform} (s : Sys) : Prop :=
  ∃ config s0 evs, MacroTool_init config = Ok s0 ∧ s = run_events s0 evs.

(** ** Vocabulary of the statements *)

(** The backend calls in a trace, in order. *)
Definition calls_of (tr : list Event) : list Call :=
  omap (fun ev => match ev with Backend c => Some c | _ => None end) tr.

(** The release call that [release_all] attempts for a token: [None] when
    the token does not split, has another kind, or names no key or button. *)
Definition release_call `{Platform} (t : string) : option Call :=
  match PyStr.split_once ":"%char t with
  | None => None
  | Some (kind, val) =>
      if decide (kind = "key") then
        if USE_PDI then Some (PDI_keyUp (to_pdi_key val))
        else match parse_key_pynput val with
             | Ok key => Some (K_release key)
             | Err _ => None
             end
      else if decide (kind = "mouse") then
        if USE_PDI then
          match to_pdi_button val with
          | Ok b => Some (PDI_mouseUp b)
          | Err _ => None
          end
        else Some (M_release (pynput_button val))
      else None
  end.

(** The calls of [cs] that are attempted when they are issued one after the
    other from trace [tr]: up to and including the first one that raises. *)
Fixpoint attempted `{Platform} (tr : list Event) (cs : list Call) : list Call :=
  match cs with
  | [] => []
  | c :: cs' =>
      c :: (if backend_ok tr c then attempted (tr ++ [Backend c]) cs' else [])
  end.

(** The backend accepts every call of [cs] issued from trace [tr]. *)
Fixpoint accepted `{Platform} (tr : list Event) (cs : list Call) : bool :=
  match cs with
  | [] => true
  | c :: cs' => backend_ok tr c && accepted (tr ++ [Backend c]) cs'
  end.

(** How issuing [cs] one after the other from trace [tr] ends. *)
Fixpoint calls_result `{Platform} (tr : list Event) (cs : list Call) : Res unit :=
  match cs with
  | [] => Ok tt
  | c :: cs' =>
      if backend_ok tr c then calls_result (tr ++ [Backend c]) cs'
      else Err (BackendError c)
  end.

(** The press call and the hold token of a [key] or [mouse_button] step with
    [action = "press"], or the error raised before any call is made. *)
Definition press_call `{Platform} (step : Step) : Res (Call * string) :=
  if decide (step_type step = Some "key") then
    match step_key step with
    | None => Err (KeyError "key")
    | Some raw =>
        if USE_PDI then Ok (PDI_keyDown (to_pdi_key raw), key_token raw)
        else match parse_key_pynput raw with
             | Ok key => Ok (K_press key, key_token raw)
             | Err e => Err e
             end
    end
  else
    let button := default "left" (step_button step) in
    if USE_PDI then
      match to_pdi_button button with
      | Ok b => Ok (PDI_mouseDown b, mouse_token button)
      | Err e => Err e
      end
    else Ok (M_press (pynput_button button), mouse_token button).

(** The calls of a [key] or [mouse_button] step with [action = "tap"]. *)
Definition tap_calls `{Platform} (step : Step) : Res (list Call) :=
  if decide (step_type step = Some "key") then
    match step_key step with
    | None => Err (KeyError "key")
    | Some raw =>
        if USE_PDI then Ok [PDI_press (to_pdi_key raw)]
        else match parse_key_pynput raw with
             | Ok key => Ok [K_press key; K_release key]
             | Err e => Err e
             end
    end
  else
    let button := default "left" (step_button step) in
    if USE_PDI then
      match to_pdi_button button with
      | Ok b => Ok [PDI_click b 1]
      | Err e => Err e
      end
    else Ok [M_click (pynput_button button)].

(** The calls of a [combo] step over [raw_keys]: every key down in the order
    given, then every key up in the reverse order; or the error of the first
    key that does not parse, raised before any call. *)
Definition combo_calls `{Platform} (raw_keys : list string) : Res (list Call) :=
  if USE_PDI then
    Ok (((fun rk => PDI_keyDown (to_pdi_key rk)) <$> raw_keys)
          ++ ((fun rk => PDI_keyUp (to_pdi_key rk)) <$> reverse raw_keys))
  else
    match mapM_res parse_key_pynput raw_keys with
    | Ok keys => Ok ((K_press <$> keys) ++ (K_release <$> reverse keys))
    | Err e => Err e
    end.

(** [p] never calls [mark_down], whatever the answers it gets. *)
Fixpoint no_mark_down {A : Type} (p : Prog A) : Prop :=
  match p with
  | Ret _ | Raise _ => True
  | Vis e k =>
      match e with EMarkDown _ => False | _ => True end ∧ ∀ x, no_mark_down (k x)
  end.

(** [p] calls neither [mark_down] nor [mark_up] nor [release_all]. *)
Fixpoint no_hold_op {A : Type} (p : Prog A) : Prop :=
  match p with
  | Ret _ | Raise _ => True
  | Vis e k =>
      match e with
      | EMarkDown _ | EMarkUp _ | ESnapshotClear => False
      | _ => True
      end ∧ ∀ x, no_hold_op (k x)
  end.

(** An [action] outside tap/press/release, with the default applied. *)
Definition bad_action (step : Step) : Prop :=
  let a := default "tap" (step_action step) in
  a ≠ "tap" ∧ a ≠ "press" ∧ a ≠ "release".

(** A [mode] outside relative/absolute, with the default applied. *)
Definition bad_mode (step : Step) : Prop :=
  let m := default "relative" (step_mode step) in
  m ≠ "relative" ∧ m ≠ "absolute".

Definition out_of_enum (step : Step) : Prop :=
  (step_type step = Some "key" ∧ bad_action step)
  ∨ (step_type step = Some "mouse_button" ∧ bad_action step)
  ∨ (step_type step = Some "mouse_move" ∧ bad_mode step).

(** The exception [do_step] raises for a step that is [out_of_enum]: the
    checks made before the action or mode is looked at come first. *)
Definition enum_error `{Platform} (step : Step) : Exn :=
  if decide (step_type step = Some "key") then
    match step_key step with
    | None => KeyError "key"
    | Some raw =>
        if USE_PDI then ValueError BadKeyAction
        else match parse_key_pynput raw with
             | Ok _ => ValueError BadKeyAction
             | Err e => e
             end
    end
  else if decide (step_type step = Some "mouse_button") then
    if USE_PDI then
      match to_pdi_button (default "left" (step_button step)) with
      | Ok _ => ValueError BadMouseButtonAction
      | Err e => e
      end
    else ValueError BadMouseButtonAction
  else ValueError BadMouseMoveMode.

(** [config] with its ["macro"] entry replaced. *)
Definition with_macro (steps : list Step) (config : Config) : Config :=
  {| cfg_trigger_hotkey := cfg_trigger_hotkey config;
     cfg_quit_hotkey := cfg_quit_hotkey config;
     cfg_trigger_key := cfg_trigger_key config;
     cfg_quit_key := cfg_quit_key config;
     cfg_loop := cfg_loop config;
     cfg_macro := Some steps |}.

(** ** Vocabulary of the runner's statements *)

(** [n] atomic actions of a thread running [_run] for tool [t]. *)
Definition thread_run `{Platform} (t : MacroTool) (n : nat) (c : World * Pc)
  : World * Pc :=
  Nat.iter n (fun c => _run_step t c.1 c.2) c.

(** [n] atomic actions of thread [i], nothing else moving. *)
Definition bg_run `{Platform} (n i : nat) (s : Sys) : Sys :=
  Nat.iter n (bg_step i) s.

(** The background execution activities that exist: the live threads. *)
Definition activities (s : Sys) : list Pc :=
  filter (fun pc => is_alive pc = true) (threads s).

(** Only [MacroTool.thread] can be alive. *)
Definition one_thread (s : Sys) : Prop :=
  ∀ i pc, threads s !! i = Some pc → is_alive pc = true → thread s = Some i.

(** A thread that may still put tokens into the held set before it sweeps. *)
Definition before_sweep `{Platform} (pc : Pc) : Prop :=
  match pc with
  | PcWhile | PcFor _ | PcStep _ _ => True
  | PcFinally p _ => p = release_all
  | PcExited _ => False
  end.

(** The [finally] block never marks a token down. *)
Definition finally_quiet (s : Sys) : Prop :=
  ∀ i p exn, threads s !! i = Some (PcFinally p exn) → no_mark_down p.

(** A token is held only while the current thread has its sweep ahead. *)
Definition held_guarded `{Platform} (s : Sys) : Prop :=
  held (world s) = ∅
  ∨ ∃ i pc, thread s = Some i ∧ threads s !! i = Some pc ∧ before_sweep pc.

Definition sys_inv `{Platform} (s : Sys) : Prop :=
  one_thread s ∧ finally_quiet s ∧ held_guarded s.

(** [p] ends by returning, whatever the answers it gets. *)
Fixpoint no_raise {A : Type} (p : Prog A) : Prop :=
  match p with
  | Ret _ => True
  | Raise _ => False
  | Vis e k => ∀ x, no_raise (k x)
  end.

(** Every token [p] may mark down has a release call. *)
Fixpoint marks_releasable `{Platform} {A : Type} (p : Prog A) : Prop :=
  match p with
  | Ret _ | Raise _ => True
  | Vis e k =>
      match e with
      | EMarkDown t => is_Some (release_call t)
      | _ => True
      end ∧ ∀ x, marks_releasable (k x)
  end.

(** Every held token has a release call, and so has every token a step in
    progress may still mark down. *)
Definition rel_inv `{Platform} (s : Sys) : Prop :=
  (∀ t, t ∈ held (world s) → is_Some (release_call t))
  ∧ ∀ i p rest, threads s !! i = Some (PcStep p rest) → marks_releasable p.

(** ** A thread that cannot mark a token down any more *)

(** [p] performs no [mark_down] when every [is_set] it asks finds the signal
    set, whatever the other answers it gets. *)
Fixpoint settled {A : Type} (p : Prog A) : Prop :=
  match p with
  | Ret _ | Raise _ => True
  | Vis e k =>
      match e in Eff X return (X → Prop) → Prop with
      | EMarkDown _ => fun _ => False
      | EIsSet => fun q => q true
      | _ => fun q => ∀ x, q x
      end (fun x => settled (k x))
  end.

Definition settled_pc (pc : Pc) : Prop :=
  match pc with
  | PcStep p _ | PcFinally p _ => settled p
  | _ => True
  end.

(** The signal is set, no token is held and no thread can mark one down. *)
Definition quiet (s : Sys) : Prop :=
  stop_event (world s) = true
  ∧ held (world s) = ∅
  ∧ ∀ i pc, threads s !! i = Some pc → settled_pc pc.

(** The state in which [stop] takes the snapshot of its sweep: the threads
    performed [t0], [stop] set the signal, the threads performed [t1]. *)
Definition at_snapshot `{Platform} (t0 t1 : list nat) (s : Sys) : Sys :=
  let s0 := bg_steps t0 s in
  bg_steps t1 (set_world (set_stop_event true (world s0)) s0).

(** ** Concrete platforms, steps and configurations of the examples *)

Definition always_ok : list Event → Call → bool := fun _ _ => true.

(** A backend on which every pynput key release raises. *)
Definition release_fails : list Event → Call → bool :=
  fun _ c => match c with K_release _ => false | _ => true end.

(** A backend on which every key press raises. *)
Definition press_fails : list Event → Call → bool :=
  fun _ c => match c with K_press _ | PDI_keyDown _ => false | _ => true end.

(** A backend on which pressing ["b"] down with pydirectinput raises. *)
Definition keyDown_b_fails : list Event → Call → bool :=
  fun _ c => match c with PDI_keyDown k => negb (String.eqb k "b") | _ => true end.

Definition pynput_platform (ok : list Event → Call → bool) : Platform :=
  {| USE_PDI := false;
     Key_attr := fun name => bool_decide (name ∈ ["ctrl"; "shift"; "enter"]);
     backend_ok := ok |}.

Definition pdi_platform (ok : list Event → Call → bool) : Platform :=
  {| USE_PDI := true;
     Key_attr := fun name => bool_decide (name ∈ ["ctrl"; "shift"; "enter"]);
     backend_ok := ok |}.

(** [{"type": "key", "key": k}] *)
Definition key_step (k : string) : Step :=
  {| step_type := Some "key"; step_seconds := None; step_text := None;
     step_key := Some k; step_action := None; step_keys := None;
     step_button := None; step_count := None; step_mode := None;
     step_x := None; step_y := None; step_dx := None; step_dy := None |}.

(** [{"type": "combo", "keys": ks}] *)
Definition combo_step (ks : list string) : Step :=
  {| step_type := Some "combo"; step_seconds := None; step_text := None;
     step_key := None; step_action := None; step_keys := Some ks;
     step_button := None; step_count := None; step_mode := None;
     step_x := None; step_y := None; step_dx := None; step_dy := None |}.

(** [{"trigger_hotkey": "<ctrl>+q", "macro": steps}] *)
Definition hotkey_config (steps : list Step) : Config :=
  {| cfg_trigger_hotkey := Some "<ctrl>+q"; cfg_quit_hotkey := None;
     cfg_trigger_key := None; cfg_quit_key := None; cfg_loop := None;
     cfg_macro := Some steps |}.

(** The system [MacroTool(hotkey_config steps)] builds. *)
Definition fresh_sys (steps : list Step) : Sys :=
  {| tool := {| trigger_hotkey := Some "<ctrl>+q"; quit_hotkey := None;
                trigger_key := None; quit_key := None; loop := false;
                macro := steps |};
     world := {| stop_event := false; held := ∅; trace := [] |};
     threads := [];
     thread := None |}.

Definition idle_world (h : gset string) : World :=
  {| stop_event := false; held := h; trace := [] |}.

(** ** Vocabulary of the further statements on steps *)

(** The eight step types [do_step] knows. *)
Definition known_types : list string :=
  ["wait"; "text"; "key"; "combo"; "mouse_click"; "mouse_button";
   "mouse_move"; "mouse_scroll"].

(** A [key] or [mouse_button] step whose action, with the default applied,
    is press or release: the steps that operate on the held set. *)
Definition hold_step (step : Step) : Prop :=
  (step_type step = Some "key" ∨ step_type step = Some "mouse_button")
  ∧ (default "tap" (step_action step) = "press"
     ∨ default "tap" (step_action step) = "release").

(** The release call and the hold token of a [key] or [mouse_button] step
    with [action = "release"], or the error raised before any call. *)
Definition release_step_call `{Platform} (step : Step) : Res (Call * string) :=
  if decide (step_type step = Some "key") then
    match step_key step with
    | None => Err (KeyError "key")
    | Some raw =>
        if USE_PDI then Ok (PDI_keyUp (to_pdi_key raw), key_token raw)
        else match parse_key_pynput raw with
             | Ok key => Ok (K_release key, key_token raw)
             | Err e => Err e
             end
    end
  else
    let button := default "left" (step_button step) in
    if USE_PDI then
      match to_pdi_button button with
      | Ok b => Ok (PDI_mouseUp b, mouse_token button)
      | Err e => Err e
      end
    else Ok (M_release (pynput_button button), mouse_token button).

(** The call that undoes a press call. *)
Definition release_of (c : Call) : option Call :=
  match c with
  | PDI_keyDown k => Some (PDI_keyUp k)
  | PDI_mouseDown b => Some (PDI_mouseUp b)
  | K_press key => Some (K_release key)
  | M_press btn => Some (M_release btn)
  | _ => None
  end.

(** [p] never sets the signal, whatever the answers it gets. *)
Fixpoint no_set {A : Type} (p : Prog A) : Prop :=
  match p with
  | Ret _ | Raise _ => True
  | Vis e k => match e with ESet => False | _ => True end ∧ ∀ x, no_set (k x)
  end.

(** The [for step in self.macro] loop of [_run] with nothing else happening:
    [break] on the signal, the error of the first step that raises. *)
Fixpoint for_steps `{Platform} (w : World) (steps : list Step)
  : World * Res unit :=
  match steps with
  | [] => (w, Ok tt)
  | step :: rest =>
      if stop_event w then (w, Ok tt)
      else match exec w (do_step step) with
           | (w', Ok _) => for_steps w' rest
           | (w', Err e) => (w', Err e)
           end
  end.

(** How [_run] ends after its body ended with [r]. *)
Definition exit_of (r : Res unit) : Pc :=
  PcExited (match r with Ok _ => None | Err e => Some e end).

(** ** Startup: load_config, run_forever, main *)

(** The [ValueError]s of startup. *)
Inductive StartupError : Type :=
  | NoTriggerInFile        (* load_config: no "trigger_hotkey", no "trigger_key" *)
  | NoMacroInFile          (* load_config: no "macro" *)
  | InitRaised (e : Exn)   (* MacroTool.__init__ *)
  | NoTriggerSet           (* run_forever: no trigger_hotkey, no trigger_key *)
  | HotKeyRejected.        (* keyboard.GlobalHotKeys: a hotkey does not parse *)

(** The truth value of [d.get(key)] for a string entry. *)
Definition truthy (field : option string) : bool :=
  match field with
  | None => false
  | Some s => bool_decide (s ≠ "")
  end.

(** [load_config] on the dictionary that [json.loads] returned. *)
Definition load_config (data : Config) : StartupError + Config :=
  if negb (truthy (cfg_trigger_hotkey data))
     && negb (truthy (cfg_trigger_key data))
  then inl NoTriggerInFile
  else if decide (cfg_macro data = None) then inl NoMacroInFile
  else inr data.

(** The bound methods a hotkey can be mapped to. *)
Inductive Control : Type := Toggle | RequestQuit.

(** What [run_forever] listens with. *)
Inductive ListenMode : Type :=
  | GlobalHotKeys (mapping : gmap string Control)
  | SingleKeyListener.

(** [MacroTool.run_forever] up to the construction of its listener: the
    [ValueError] it raises itself, or what it constructs the listener from. *)
Definition run_forever (t : MacroTool) : StartupError + ListenMode :=
  if truthy (trigger_hotkey t) then
    let mapping : gmap string Control :=
      {[ default "" (trigger_hotkey t) := Toggle ]} in
    let mapping :=
      if truthy (quit_hotkey t)
      then <[ default "" (quit_hotkey t) := RequestQuit ]> mapping
      else mapping in
    inr (GlobalHotKeys mapping)
  else if decide (trigger_key t = None) then inl NoTriggerSet
  else inr SingleKeyListener.

(** Whether pynput's [keyboard.HotKey.parse] accepts a hotkey string. *)
Class HotKeyParser : Type := {
  HotKey_parse_ok : string → bool;
}.

(** [keyboard.GlobalHotKeys(mapping)]: the constructor parses every key of
    the mapping and raises [ValueError] at one that does not parse. *)
Definition GlobalHotKeys_init `{HotKeyParser} (mapping : gmap string Control)
  : StartupError + ListenMode :=
  if decide (map_Forall (fun k _ => HotKey_parse_ok k = true) mapping)
  then inr (GlobalHotKeys mapping)
  else inl HotKeyRejected.

(** [MacroTool.run_forever], up to the point where it blocks listening: the
    listener is constructed, which for hotkeys parses them. *)
Definition run_forever_listening `{HotKeyParser} (t : MacroTool)
  : StartupError + ListenMode :=
  match run_forever t with
  | inr (GlobalHotKeys mapping) => GlobalHotKeys_init mapping
  | other => other
  end.

(** [main], up to the point where [run_forever] blocks. *)
Definition main `{Platform} `{HotKeyParser} (data : Config)
  : StartupError + (Sys * ListenMode) :=
  match load_config data with
  | inl err => inl err
  | inr config =>
      match MacroTool_init config with
      | Err e => inl (InitRaised e)
      | Ok s =>
          match run_forever_listening (tool s) with
          | inl err => inl err
          | inr mode => inr (s, mode)
          end
      end
  end.

(** ** Single-key listener *)

(** A key as the listener hands it to its callbacks: a [Key] member with its
    [name], a [KeyCode] with its [char] (which may be [None]), or [None] for
    a key pynput does not know. *)
Inductive ListenerKey : Type :=
  | LKey (name : string)
  | LKeyCode (char : option string)
  | LNone.

(** [event_key == target] as pynput defines it on two [Key]s or two
    [KeyCode]s. *)
Class KeyEquality : Type := {
  key_eq : ListenerKey → KeyLike → bool;
}.

Definition key_matches `{KeyEquality} (event_key : ListenerKey)
    (target : KeyLike) : bool :=
  match event_key, target with
  | LKey _, Key _ => key_eq event_key target
  | LKeyCode _, KeyCode_from_char _ => key_eq event_key target
  | _, _ => false
  end.

(** [MacroTool._key_id] *)
Definition _key_id (k : ListenerKey) : string :=
  match k with
  | LKey name => "Key." +:+ name
  | LKeyCode (Some c) => "Char." +:+ c
  | LKeyCode None => "Char.None"
  | LNone => "None"
  end.

(** The tool with the listener's bookkeeping. *)
Record App : Type := {
  sys : Sys;
  _down : gset string;        (* MacroTool._down *)
}.

(** [MacroTool._on_press_single]: [None], or [Some false] for the [False]
    that ends the listener.  [sched] is what the threads do during the
    [toggle] or [request_quit] it calls. *)
Definition _on_press_single `{Platform} `{KeyEquality}
    (sched : list (list nat)) (k : ListenerKey) (a : App)
  : App * option bool :=
  let kid := _key_id k in
  if decide (kid ∈ _down a) then (a, None)
  else
    let down := _down a ∪ {[kid]} in
    let is_target (target : option KeyLike) :=
      match target with Some t => key_matches k t | None => false end in
    if is_target (trigger_key (tool (sys a))) then
      ({| sys := toggle sched (sys a); _down := down |}, None)
    else if is_target (quit_key (tool (sys a))) then
      ({| sys := (request_quit sched (sys a)).1; _down := down |}, Some false)
    else ({| sys := sys a; _down := down |}, None).

(** [MacroTool._on_release_single] *)
Definition _on_release_single (k : ListenerKey) (a : App) : App :=
  {| sys := sys a; _down := _down a ∖ {[_key_id k]} |}.

(** What the single-key listener and the threads can do next: a key goes
    down (with the thread actions that interleave with the callback), a key
    goes up, or a thread performs one action. *)
Inductive KeyEvent : Type :=
  | KeyDown (sched : list (list nat)) (k : ListenerKey)
  | KeyUp (k : ListenerKey)
  | Background (i : nat).

Definition app_step `{Platform} `{KeyEquality} (a : App) (ev : KeyEvent)
  : App :=
  match ev with
  | KeyDown sched k => (_on_press_single sched k a).1
  | KeyUp k => _on_release_single k a
  | Background i => {| sys := bg_step i (sys a); _down := _down a |}
  end.

(** The application after the listener delivered [evs] to a tool that was
    just built. *)
Definition listen `{Platform} `{KeyEquality} (s0 : Sys) (evs : list KeyEvent)
  : App :=
  foldl app_step {| sys := s0; _down := ∅ |} evs.


(** A listener on which a key equals the target when their identifiers
    agree. *)
Definition by_identifier : KeyEquality :=
  {| key_eq := fun k target =>
       match target with
       | Key name => bool_decide (_key_id k = "Key." +:+ name)
       | KeyCode_from_char c => bool_decide (_key_id k = "Char." +:+ c)
       end |}.

(** [{"trigger_key": tk, "quit_key": qk, "macro": steps}] *)
Definition single_key_config (tk qk : string) (steps : list Step) : Config :=
  {| cfg_trigger_hotkey := None; cfg_quit_hotkey := None;
     cfg_trigger_key := Some tk; cfg_quit_key := Some qk; cfg_loop := None;
     cfg_macro := Some steps |}.

(** [{"type": "mouse_click", "count": n}] *)
Definition click_step (n : Z) : Step :=
  {| step_type := Some "mouse_click"; step_seconds := None; step_text := None;
     step_key := None; step_action := None; step_keys := None;
     step_button := None; step_count := Some n; step_mode := None;
     step_x := None; step_y := None; step_dx := None; step_dy := None |}.

(** [{"type": "mouse_scroll", "dx": dx, "dy": dy}] *)
Definition scroll_step (dx dy : Z) : Step :=
  {| step_type := Some "mouse_scroll"; step_seconds := None; step_text := None;
     step_key := None; step_action := None; step_keys := None;
     step_button := None; step_count := None; step_mode := None;
     step_x := None; step_y := None; step_dx := Some dx; step_dy := Some dy |}.

(** ** Vocabulary of the proofs on [PyStr.strip] *)

(** [PyStr.lstrip] on the list of characters. *)
Fixpoint lstrip_list (l : list ascii) : list ascii :=
  match l with
  | a :: l' => if PyStr.is_space a then lstrip_list l' else l
  | [] => []
  end.

(** A list that does not start with white space. *)
Definition clean (l : list ascii) : Prop :=
  match l with
  | a :: _ => PyStr.is_space a = false
  | [] => True
  end.
(** * Proofs *)

(** ** Key names *)

Example to_pdi_key_page_up : to_pdi_key " Key.page_up " = "pageup".
Proof. vm_compute. reflexivity. Qed.

Example to_pdi_key_f12 : to_pdi_key "Key.f12" = "f12".
Proof. vm_compute. reflexivity. Qed.

Example to_pdi_key_unlisted : to_pdi_key "Key.media_next" = "media_next".
Proof. vm_compute. reflexivity. Qed.

Example to_pdi_button_strips_and_lowers : to_pdi_button " Left" = Ok "left".
Proof. vm_compute. reflexivity. Qed.

Example parse_key_pynput_named :
  @parse_key_pynput (pynput_platform always_ok) " Key.ctrl" = Ok (Key "ctrl").
Proof. vm_compute. reflexivity. Qed.

Example parse_key_pynput_two_chars :
  @parse_key_pynput (pynput_platform always_ok) "ab"
  = Err (ValueError (BadKeySpec "ab")).
Proof. vm_compute. reflexivity. Qed.



(** ** Running programs *)

Section Exec.
Context `{Platform}.

Lemma exec_bind {A B : Type} (p : Prog A) (f : A → Prog B) (w : World) :
  exec w (p ≫= f) =
  match exec w p with
  | (w', Ok a) => exec w' (f a)
  | (w', Err e) => (w', Err e)
  end.
Proof.
  revert w. induction p as [a|e|X e k IH]; intros w; simpl; try done.
  destruct (handle w e) as [w' x]. apply IH.
Qed.

Lemma exec_try_except {A : Type} (p : Prog A) (h : Exn → Prog A) (w : World) :
  exec w (try_except p h) =
  match exec w p with
  | (w', Ok a) => (w', Ok a)
  | (w', Err e) => exec w' (h e)
  end.
Proof.
  revert w. induction p as [a|e|X e k IH]; intros w; simpl; try done.
  destruct (handle w e) as [w' x]. apply IH.
Qed.

Lemma exec_call (c : Call) (w : World) :
  exec w (call c) =
  (log (Backend c) w,
   if backend_ok (trace w) c then Ok tt else Err (BackendError c)).
Proof. simpl. by destruct (backend_ok (trace w) c). Qed.

Lemma exec_lift {A : Type} (r : Res A) (w : World) : exec w (lift r) = (w, r).
Proof. by destruct r. Qed.

Lemma exec_mark_down (t : string) (w : World) :
  exec w (mark_down t) = (log (MarkDown t) (set_held (held w ∪ {[t]}) w), Ok tt).
Proof. done. Qed.

Lemma exec_mark_up (t : string) (w : World) :
  exec w (mark_up t) = (log (MarkUp t) (set_held (held w ∖ {[t]}) w), Ok tt).
Proof. done. Qed.

Lemma log_extend (ev : Event) (w : World) : log ev w = extend [ev] w.
Proof. done. Qed.

Lemma extend_nil (w : World) : extend [] w = w.
Proof. destruct w. unfold extend; simpl. by rewrite app_nil_r. Qed.

Lemma extend_extend (evs1 evs2 : list Event) (w : World) :
  extend evs2 (extend evs1 w) = extend (evs1 ++ evs2) w.
Proof. unfold extend; simpl. by rewrite app_assoc. Qed.

Lemma calls_of_app (tr1 tr2 : list Event) :
  calls_of (tr1 ++ tr2) = calls_of tr1 ++ calls_of tr2.
Proof. apply omap_app. Qed.

Lemma calls_of_Backend (cs : list Call) : calls_of (Backend <$> cs) = cs.
Proof. induction cs as [|c cs IH]; simpl; [done|]. by f_equal. Qed.

Lemma attempted_accepted (tr : list Event) (cs : list Call) :
  accepted tr cs = true → attempted tr cs = cs ∧ calls_result tr cs = Ok tt.
Proof.
  revert tr. induction cs as [|c cs IH]; intros tr Hacc; simpl in *; [done|].
  apply andb_true_iff in Hacc as [Hc Hcs]. rewrite Hc.
  destruct (IH _ Hcs) as [-> ->]. done.
Qed.

Lemma attempted_prefix (tr : list Event) (cs : list Call) :
  attempted tr cs `prefix_of` cs.
Proof.
  revert tr. induction cs as [|c cs IH]; intros tr; simpl; [done|].
  apply prefix_cons. destruct (backend_ok tr c); [apply IH|apply prefix_nil].
Qed.

Lemma exec_calls {X : Type} (f : X → Call) (l : list X) (w : World) :
  exec w (for_each l (fun x => call (f x))) =
  (extend (Backend <$> attempted (trace w) (f <$> l)) w,
   calls_result (trace w) (f <$> l)).
Proof.
  revert w. induction l as [|x l IH]; intros w.
  - simpl. by rewrite extend_nil.
  - cbn [for_each]. rewrite exec_bind, exec_call. cbn [fmap list_fmap attempted calls_result].
    destruct (backend_ok (trace w) (f x)).
    + rewrite IH, log_extend, extend_extend. done.
    + by rewrite log_extend.
Qed.

Lemma calls_result_ok_attempted (tr : list Event) (cs : list Call) :
  calls_result tr cs = Ok tt → attempted tr cs = cs.
Proof.
  revert tr. induction cs as [|c cs IH]; intros tr Hr; simpl in *; [done|].
  destruct (backend_ok tr c); [|done]. by rewrite IH.
Qed.

Lemma attempted_app (tr : list Event) (cs1 cs2 : list Call) :
  attempted tr (cs1 ++ cs2) =
  match calls_result tr cs1 with
  | Ok _ => cs1 ++ attempted (tr ++ (Backend <$> cs1)) cs2
  | Err _ => attempted tr cs1
  end.
Proof.
  revert tr. induction cs1 as [|c cs1 IH]; intros tr; simpl.
  - by rewrite app_nil_r.
  - destruct (backend_ok tr c); [|done].
    rewrite IH, <- app_assoc. simpl. by destruct (calls_result _ cs1).
Qed.

Lemma calls_result_app (tr : list Event) (cs1 cs2 : list Call) :
  calls_result tr (cs1 ++ cs2) =
  match calls_result tr cs1 with
  | Ok _ => calls_result (tr ++ (Backend <$> cs1)) cs2
  | Err e => Err e
  end.
Proof.
  revert tr. induction cs1 as [|c cs1 IH]; intros tr; simpl.
  - by rewrite app_nil_r.
  - destruct (backend_ok tr c); [|done].
    rewrite IH, <- app_assoc. done.
Qed.

Lemma exec_calls_twice {X Y : Type} (f : X → Call) (g : Y → Call)
    (l1 : list X) (l2 : list Y) (w : World) :
  exec w (for_each l1 (fun x => call (f x));; for_each l2 (fun y => call (g y))) =
  (extend (Backend <$> attempted (trace w) ((f <$> l1) ++ (g <$> l2))) w,
   calls_result (trace w) ((f <$> l1) ++ (g <$> l2))).
Proof.
  rewrite exec_bind, exec_calls, attempted_app, calls_result_app.
  destruct (calls_result (trace w) (f <$> l1)) as [[]|e] eqn:Hr; [|done].
  rewrite exec_calls, extend_extend, (calls_result_ok_attempted _ _ Hr).
  by rewrite fmap_app.
Qed.

(** *** release_all *)

Lemma exec_release_token (t : string) (w : World) :
  exec w (try_except (release_token t) (fun _ => Ret tt)) =
  (extend (Backend <$> option_list (release_call t)) w, Ok tt).
Proof.
  rewrite exec_try_except. unfold release_token, release_call.
  destruct (PyStr.split_once ":"%char t) as [[kind val]|]; simpl;
    [|by rewrite extend_nil].
  repeat case_decide; simpl; try by rewrite extend_nil.
  - destruct USE_PDI.
    + rewrite exec_call. by destruct (backend_ok _ _).
    + rewrite exec_bind, exec_lift.
      destruct (parse_key_pynput val); simpl; [|by rewrite extend_nil].
      by destruct (backend_ok _ _).
  - destruct USE_PDI.
    + rewrite exec_bind, exec_lift.
      destruct (to_pdi_button val); simpl; [|by rewrite extend_nil].
      by destruct (backend_ok _ _).
    + rewrite exec_call. by destruct (backend_ok _ _).
Qed.

Lemma exec_release_sweep (tokens : list string) (w : World) :
  exec w (for_each tokens
            (fun t => try_except (release_token t) (fun _ => Ret tt))) =
  (extend (Backend <$> omap release_call tokens) w, Ok tt).
Proof.
  revert w. induction tokens as [|t tokens IH]; intros w.
  - simpl. by rewrite extend_nil.
  - cbn [for_each]. rewrite exec_bind, exec_release_token, IH, extend_extend.
    do 2 f_equal. simpl. by destruct (release_call t).
Qed.

Lemma exec_release_all (w : World) :
  exec w release_all =
  (extend (ReleaseAll (elements (held w))
             :: (Backend <$> omap release_call (elements (held w))))
     (set_held ∅ w), Ok tt).
Proof.
  unfold release_all. cbn [exec handle]. rewrite exec_release_sweep.
  by rewrite log_extend, extend_extend.
Qed.

Lemma exec_stop (w : World) :
  exec w stop =
  (extend (ReleaseAll (elements (held w))
             :: (Backend <$> omap release_call (elements (held w))))
     (set_held ∅ (set_stop_event true w)), Ok tt).
Proof.
  unfold stop. rewrite exec_bind. cbn [exec set_stop handle].
  rewrite exec_bind, exec_release_all. done.
Qed.

End Exec.

(** ** do_step *)

Section DoStep.
Context `{Platform}.

Lemma no_hold_op_bind {A B : Type} (p : Prog A) (f : A → Prog B) :
  no_hold_op p → (∀ a, no_hold_op (f a)) → no_hold_op (p ≫= f).
Proof.
  intros Hp Hf. induction p as [a|e|X e k IH]; simpl in *; [done..|].
  destruct Hp as [He Hk]. split; [done|]. intros x. by apply IH.
Qed.

Lemma no_hold_op_call (c : Call) : no_hold_op (call c).
Proof. split; [done|]. by intros []. Qed.

Lemma no_hold_op_lift {A : Type} (r : Res A) : no_hold_op (lift r).
Proof. by destruct r. Qed.

Lemma no_hold_op_getitem {A : Type} (key : string) (field : option A) :
  no_hold_op (getitem key field).
Proof. by destruct field. Qed.

Lemma no_hold_op_calls {X : Type} (f : X → Call) (l : list X) :
  no_hold_op (for_each l (fun x => call (f x))).
Proof.
  induction l as [|x l IH]; [done|]. cbn [for_each].
  apply no_hold_op_bind; [apply no_hold_op_call|done].
Qed.

Lemma exec_do_step_not_wait (step : Step) (w : World) :
  step_type step ≠ Some "wait" → stop_event w = true →
  exec w (do_step step) = (w, Ok tt).
Proof.
  intros Ht Hs. unfold do_step. rewrite decide_False by done.
  rewrite exec_bind. cbn [exec is_set handle]. by rewrite Hs.
Qed.

Lemma exec_call_then_mark (c : Call) (p : Prog unit) (w : World) :
  exec w (call c;; p) =
  if backend_ok (trace w) c then exec (log (Backend c) w) p
  else (extend [Backend c] w, Err (BackendError c)).
Proof. rewrite exec_bind, exec_call. by destruct (backend_ok _ _). Qed.

Lemma mark_down_after_call (c : Call) (t : string) (w : World) :
  log (MarkDown t) (set_held (held (log (Backend c) w) ∪ {[t]}) (log (Backend c) w))
  = extend [Backend c; MarkDown t] (set_held (held w ∪ {[t]}) w).
Proof. unfold log, extend, set_held; simpl. by rewrite <- app_assoc. Qed.

(** Resolve the string comparisons whose outcome is known. *)
Ltac settle_decide :=
  repeat (first [ rewrite decide_True by done | rewrite decide_False by done ]).

(** Enter [do_step] for a step whose type is known, with the signal clear. *)
Ltac enter_do_step Ht Hs :=
  unfold do_step; rewrite Ht;
  rewrite (decide_False (P := _ = Some "wait")) by done;
  rewrite exec_bind; cbn [exec is_set handle]; rewrite Hs;
  settle_decide.

Lemma exec_press_step (step : Step) (w : World) :
  stop_event w = false →
  step_action step = Some "press" →
  step_type step = Some "key" ∨ step_type step = Some "mouse_button" →
  exec w (do_step step) =
  match press_call step with
  | Err e => (w, Err e)
  | Ok (c, token) =>
      if backend_ok (trace w) c
      then (extend [Backend c; MarkDown token] (set_held (held w ∪ {[token]}) w),
            Ok tt)
      else (extend [Backend c] w, Err (BackendError c))
  end.
Proof.
  intros Hs Ha [Ht|Ht]; unfold press_call; enter_do_step Ht Hs.
  - destruct (step_key step) as [raw|]; [|done].
    cbn [getitem]. rewrite Ha. cbn [from_option id mbind Prog_bind bind].
    destruct USE_PDI.
    + settle_decide.
      rewrite exec_call_then_mark, exec_mark_down, mark_down_after_call.
      done.
    + rewrite exec_bind, exec_lift.
      destruct (parse_key_pynput raw) as [key|e]; [|done].
      settle_decide.
      rewrite exec_call_then_mark, exec_mark_down, mark_down_after_call.
      done.
  - rewrite Ha. cbn [from_option id]. destruct USE_PDI.
    + rewrite exec_bind, exec_lift.
      destruct (to_pdi_button _) as [b|e]; [|done].
      settle_decide.
      rewrite exec_call_then_mark, exec_mark_down, mark_down_after_call.
      done.
    + settle_decide.
      rewrite exec_call_then_mark, exec_mark_down, mark_down_after_call.
      done.
Qed.

Lemma exec_tap_step (step : Step) (w : World) :
  stop_event w = false →
  default "tap" (step_action step) = "tap" →
  step_type step = Some "key" ∨ step_type step = Some "mouse_button" →
  exec w (do_step step) =
  match tap_calls step with
  | Err e => (w, Err e)
  | Ok cs =>
      (extend (Backend <$> attempted (trace w) cs) w, calls_result (trace w) cs)
  end.
Proof.
  intros Hs Ha [Ht|Ht]; unfold tap_calls; enter_do_step Ht Hs.
  - destruct (step_key step) as [raw|]; [|done].
    cbn [getitem mbind Prog_bind bind]. rewrite Ha.
    destruct USE_PDI.
    + settle_decide. rewrite exec_call, log_extend. cbn.
      by destruct (backend_ok _ _).
    + rewrite exec_bind, exec_lift.
      destruct (parse_key_pynput raw) as [key|e]; [|done].
      settle_decide. rewrite exec_call_then_mark. cbn [attempted calls_result].
      destruct (backend_ok (trace w) (K_press key)); [|done].
      rewrite exec_call, !log_extend, extend_extend. cbn.
      by destruct (backend_ok _ _).
  - rewrite Ha. destruct USE_PDI.
    + rewrite exec_bind, exec_lift.
      destruct (to_pdi_button _) as [b|e]; [|done].
      settle_decide. rewrite exec_call, log_extend. cbn.
      by destruct (backend_ok _ _).
    + settle_decide. rewrite exec_call, log_extend. cbn.
      by destruct (backend_ok _ _).
Qed.

Lemma no_hold_op_is_set : no_hold_op is_set.
Proof. by split. Qed.

Lemma no_hold_op_tap_step (step : Step) :
  default "tap" (step_action step) = "tap" →
  step_type step = Some "key" ∨ step_type step = Some "mouse_button" →
  no_hold_op (do_step step).
Proof.
  intros Ha [Ht|Ht]; unfold do_step; rewrite Ht; settle_decide;
    (apply no_hold_op_bind; [apply no_hold_op_is_set|]); intros [|]; [done| |done|].
  - apply no_hold_op_bind; [apply no_hold_op_getitem|]. intros raw.
    rewrite Ha. settle_decide.
    destruct USE_PDI; [apply no_hold_op_call|].
    apply no_hold_op_bind; [apply no_hold_op_lift|]. intros key.
    apply no_hold_op_bind; [apply no_hold_op_call|]. intros _. apply no_hold_op_call.
  - rewrite Ha. settle_decide. destruct USE_PDI; [|apply no_hold_op_call].
    apply no_hold_op_bind; [apply no_hold_op_lift|]. intros b.
    apply no_hold_op_call.
Qed.

Lemma exec_combo_step (step : Step) (w : World) :
  stop_event w = false →
  step_type step = Some "combo" →
  exec w (do_step step) =
  match combo_calls (default [] (step_keys step)) with
  | Err e => (w, Err e)
  | Ok cs =>
      (extend (Backend <$> attempted (trace w) cs) w, calls_result (trace w) cs)
  end.
Proof.
  intros Hs Ht. unfold combo_calls. enter_do_step Ht Hs.
  destruct (default [] (step_keys step)) as [|rk rks] eqn:Hks.
  - rewrite decide_True by done. destruct USE_PDI; simpl; by rewrite extend_nil.
  - rewrite decide_False by done. destruct USE_PDI.
    + apply exec_calls_twice.
    + rewrite exec_bind, exec_lift.
      destruct (mapM_res parse_key_pynput (rk :: rks)) as [keys|e]; [|done].
      rewrite <- (list_fmap_id keys) at 1.
      rewrite <- (list_fmap_id (reverse keys)) at 1.
      rewrite exec_calls_twice. by rewrite !list_fmap_id.
Qed.

Lemma no_hold_op_combo_step (step : Step) :
  step_type step = Some "combo" → no_hold_op (do_step step).
Proof.
  intros Ht. unfold do_step. rewrite Ht. settle_decide.
  apply no_hold_op_bind; [apply no_hold_op_is_set|]. intros [|]; [done|].
  case_decide; [done|]. destruct USE_PDI.
  - apply no_hold_op_bind; [apply no_hold_op_calls|]. intros _.
    apply no_hold_op_calls.
  - apply no_hold_op_bind; [apply no_hold_op_lift|]. intros keys.
    apply no_hold_op_bind; [apply no_hold_op_calls|]. intros _.
    apply no_hold_op_calls.
Qed.

Lemma exec_out_of_enum (step : Step) (w : World) :
  stop_event w = false → out_of_enum step →
  exec w (do_step step) = (w, Err (enum_error step)).
Proof.
  intros Hs [[Ht [? [? ?]]]|[[Ht [? [? ?]]]|[Ht [? ?]]]];
    unfold enum_error; enter_do_step Ht Hs.
  - destruct (step_key step) as [raw|]; [|done].
    cbn [getitem mbind Prog_bind bind]. destruct USE_PDI.
    + by settle_decide.
    + rewrite exec_bind, exec_lift.
      destruct (parse_key_pynput raw) as [key|e]; [|done]. by settle_decide.
  - destruct USE_PDI.
    + rewrite exec_bind, exec_lift.
      destruct (to_pdi_button _) as [b|e]; [|done]. by settle_decide.
    + by settle_decide.
  - by destruct USE_PDI; settle_decide.
Qed.

Lemma MacroTool_init_macro (config : Config) (s : Sys) (steps : list Step) :
  MacroTool_init config = Ok s →
  macro (tool s) = default [] (cfg_macro config)
  ∧ ∃ s', MacroTool_init (with_macro steps config) = Ok s'
          ∧ macro (tool s') = steps.
Proof.
  unfold MacroTool_init. simpl.
  destruct (if_truthy (cfg_trigger_hotkey config) _) as [th|]; [|done].
  destruct (if_truthy (cfg_quit_hotkey config) _) as [qh|]; [|done].
  destruct (if_truthy (cfg_trigger_key config) _) as [tk|]; [|done].
  destruct (if_truthy (cfg_quit_key config) _) as [qk|]; [|done].
  intros [= <-]. split; [done|]. eexists. split; [done|]. done.
Qed.

End DoStep.

(** ** The runner *)

Section System.
Context `{Platform}.

Lemma is_alive_run_step (t : MacroTool) (w : World) (pc : Pc) :
  is_alive (_run_step t w pc).2 = true → is_alive pc = true.
Proof. by destruct pc. Qed.

Lemma bg_step_lookup (i : nat) (s : Sys) (pc : Pc) :
  threads s !! i = Some pc →
  bg_step i s =
  {| tool := tool s;
     world := (_run_step (tool s) (world s) pc).1;
     threads := <[i := (_run_step (tool s) (world s) pc).2]> (threads s);
     thread := thread s |}.
Proof.
  intros Hi. unfold bg_step. rewrite Hi.
  by destruct (_run_step (tool s) (world s) pc).
Qed.

Lemma bg_step_missing (i : nat) (s : Sys) :
  threads s !! i = None → bg_step i s = s.
Proof. intros Hi. unfold bg_step. by rewrite Hi. Qed.

Lemma bg_step_dead (i : nat) (s : Sys) (pc : Pc) :
  threads s !! i = Some pc → is_alive pc = false → bg_step i s = s.
Proof.
  intros Hi Hd. rewrite (bg_step_lookup _ _ _ Hi).
  destruct pc; try done. simpl. rewrite list_insert_id by done. by destruct s.
Qed.

Lemma bg_step_frame (i : nat) (s : Sys) :
  tool (bg_step i s) = tool s ∧ thread (bg_step i s) = thread s
  ∧ length (threads (bg_step i s)) = length (threads s)
  ∧ ∀ j, j ≠ i → threads (bg_step i s) !! j = threads s !! j.
Proof.
  destruct (threads s !! i) as [pc|] eqn:Hi.
  - rewrite (bg_step_lookup _ _ _ Hi). simpl.
    rewrite length_insert. repeat split; try done.
    intros j Hj. by rewrite list_lookup_insert_ne.
  - by rewrite (bg_step_missing _ _ Hi).
Qed.

(** *** At most one live thread *)

Lemma one_thread_bg_step (i : nat) (s : Sys) :
  one_thread s → one_thread (bg_step i s).
Proof.
  intros Hone j pc Hj Ha.
  destruct (bg_step_frame i s) as (_ & Hth & _ & Hother). rewrite Hth.
  destruct (decide (j = i)) as [->|Hne]; [|rewrite Hother in Hj by done; eauto].
  destruct (threads s !! i) as [pc0|] eqn:Hi;
    [|rewrite (bg_step_missing _ _ Hi) in Hj; congruence].
  rewrite (bg_step_lookup _ _ _ Hi) in Hj. simpl in Hj.
  rewrite list_lookup_insert_eq in Hj by (by eapply lookup_lt_Some).
  injection Hj as <-. eapply Hone; [done|]. by eapply is_alive_run_step.
Qed.

Lemma one_thread_bg_steps (tids : list nat) (s : Sys) :
  one_thread s → one_thread (bg_steps tids s).
Proof.
  revert s. induction tids as [|i tids IH]; intros s Hone; [done|].
  simpl. apply IH. by apply one_thread_bg_step.
Qed.

Lemma not_running_all_dead (s : Sys) :
  one_thread s → is_running s = false →
  ∀ j pc, threads s !! j = Some pc → is_alive pc = false.
Proof.
  intros Hone Hrun j pc Hj. destruct (is_alive pc) eqn:Ha; [|done].
  unfold is_running in Hrun. rewrite (Hone _ _ Hj Ha), Hj in Hrun. congruence.
Qed.

Lemma one_thread_start (s : Sys) : one_thread s → one_thread (start s).
Proof.
  intros Hone. unfold start. destruct (is_running s) eqn:Hrun; [done|].
  intros j pc Hj Ha. simpl in *.
  destruct (decide (j < length (threads s))%nat) as [Hlt|Hge].
  - rewrite lookup_app_l in Hj by done.
    rewrite (not_running_all_dead s Hone Hrun _ _ Hj) in Ha. done.
  - apply lookup_lt_Some in Hj as Hlen. rewrite length_app in Hlen.
    simpl in Hlen. f_equal. lia.
Qed.

Lemma one_thread_set_world (w : World) (s : Sys) :
  one_thread s → one_thread (set_world w s).
Proof. done. Qed.

Lemma one_thread_run_ctl {A : Type} (p : Prog A) (sched : list (list nat))
    (s : Sys) :
  one_thread s → one_thread (run_ctl sched s p).1.
Proof.
  revert sched s. induction p as [a|e|X e k IH]; intros sched s Hone; simpl;
    try by apply one_thread_bg_steps.
  destruct (handle _ e) as [w' x] eqn:Hh. apply IH.
  by apply one_thread_set_world, one_thread_bg_steps.
Qed.

Lemma one_thread_sys_step (s : Sys) (ev : Ev) :
  one_thread s → one_thread (sys_step s ev).
Proof.
  intros Hone. destruct ev as [|sched|sched|sched|i]; simpl.
  - by apply one_thread_start.
  - by apply one_thread_run_ctl.
  - unfold toggle. destruct (is_running s).
    + by apply one_thread_run_ctl.
    + by apply one_thread_start, one_thread_bg_steps.
  - by apply one_thread_run_ctl.
  - by apply one_thread_bg_step.
Qed.

Lemma dead_no_activity (l : list Pc) :
  (∀ j pc, l !! j = Some pc → is_alive pc = false) →
  filter (fun pc => is_alive pc = true) l = [].
Proof.
  induction l as [|pc l IH]; intros Hd; [done|].
  rewrite filter_cons_False; [|rewrite (Hd 0%nat pc); done].
  apply IH. intros j pc' Hj. by apply (Hd (S j)).
Qed.

Lemma one_thread_activities (s : Sys) :
  one_thread s →
  length (activities s) = if is_running s then 1%nat else 0%nat.
Proof.
  intros Hone. unfold activities.
  destruct (is_running s) eqn:Hrun;
    [|by rewrite dead_no_activity by (by apply not_running_all_dead)].
  unfold is_running in Hrun.
  destruct (thread s) as [i|] eqn:Hth; [|done].
  destruct (threads s !! i) as [pc|] eqn:Hi; [|done].
  rewrite <- (take_drop_middle _ _ _ Hi), filter_app, filter_cons_True by done.
  assert (∀ j pc', threads s !! j = Some pc' → j ≠ i → is_alive pc' = false)
    as Hd.
  { intros j pc' Hj Hne. destruct (is_alive pc') eqn:Ha; [|done].
    specialize (Hone _ _ Hj Ha). congruence. }
  rewrite !dead_no_activity; [done| |].
  - intros j pc' Hj. rewrite lookup_drop in Hj. eapply Hd; [done|lia].
  - intros j pc' Hj. apply lookup_take_Some in Hj as [Hj Hlt].
    eapply Hd; [done|lia].
Qed.

(** *** Tokens are held only while a sweep is still ahead *)

Lemma no_mark_down_bind {A B : Type} (p : Prog A) (f : A → Prog B) :
  no_mark_down p → (∀ a, no_mark_down (f a)) → no_mark_down (p ≫= f).
Proof.
  intros Hp Hf. induction p as [a|e|X e k IH]; simpl in *; [done..|].
  destruct Hp as [He Hk]. split; [done|]. intros x. by apply IH.
Qed.

Lemma no_mark_down_try_except {A : Type} (p : Prog A) (h : Exn → Prog A) :
  no_mark_down p → (∀ e, no_mark_down (h e)) → no_mark_down (try_except p h).
Proof.
  intros Hp Hh. induction p as [a|e|X e k IH]; simpl in *; [done..|].
  destruct Hp as [He Hk]. split; [done|]. intros x. by apply IH.
Qed.

Lemma no_mark_down_call (c : Call) : no_mark_down (call c).
Proof. split; [done|]. by intros []. Qed.

Lemma no_mark_down_release_token (t : string) : no_mark_down (release_token t).
Proof.
  unfold release_token.
  destruct (PyStr.split_once ":"%char t) as [[kind val]|]; [|done].
  repeat case_decide; try done; destruct USE_PDI;
    try apply no_mark_down_call.
  - apply no_mark_down_bind; [by destruct (parse_key_pynput val)|].
    intros ?. apply no_mark_down_call.
  - apply no_mark_down_bind; [by destruct (to_pdi_button val)|].
    intros ?. apply no_mark_down_call.
Qed.

Lemma no_mark_down_release_all : no_mark_down release_all.
Proof.
  split; [done|]. intros tokens.
  induction tokens as [|t tokens IH]; [done|]. cbn [for_each].
  apply no_mark_down_bind; [|done].
  apply no_mark_down_try_except; [apply no_mark_down_release_token|done].
Qed.

Lemma no_mark_down_stop : no_mark_down stop.
Proof.
  unfold stop. apply no_mark_down_bind; [by split|]. intros _.
  apply no_mark_down_bind; [apply no_mark_down_release_all|]. intros _.
  by split.
Qed.

Lemma handle_keeps_empty {X : Type} (e : Eff X) (w : World) :
  match e with EMarkDown _ => False | _ => True end →
  held w = ∅ → held (handle w e).1 = ∅.
Proof.
  intros He Hw. destruct e; simpl; try done.
  rewrite Hw. apply empty_difference_L.
Qed.

Lemma before_sweep_alive (pc : Pc) : before_sweep pc → is_alive pc = true.
Proof. by destruct pc. Qed.

Lemma before_sweep_run_start (t : MacroTool) : before_sweep (_run_start t).
Proof. unfold _run_start. by destruct (loop t). Qed.

Lemma before_sweep_run_break (t : MacroTool) : before_sweep (_run_break t).
Proof. unfold _run_break. by destruct (loop t). Qed.

Lemma sys_inv_bg_step (i : nat) (s : Sys) : sys_inv s → sys_inv (bg_step i s).
Proof.
  intros (Hone & Hfin & Hheld).
  split; [by apply one_thread_bg_step|].
  destruct (threads s !! i) as [pc|] eqn:Hi;
    [|by rewrite (bg_step_missing _ _ Hi)].
  destruct (is_alive pc) eqn:Ha; [|by rewrite (bg_step_dead _ _ _ Hi Ha)].
  pose proof (Hone _ _ Hi Ha) as Hth.
  pose proof (lookup_lt_Some _ _ _ Hi) as Hlt.
  rewrite (bg_step_lookup _ _ _ Hi).
  split.
  - intros j p exn Hj. simpl in Hj.
    destruct (decide (j = i)) as [->|Hne];
      [|rewrite list_lookup_insert_ne in Hj by done; eauto].
    rewrite list_lookup_insert_eq in Hj by done. injection Hj as Hj.
    destruct pc as [|[|step rest]|p0 rest|p0 exn0|exn0]; simpl in Hj.
    + destruct (stop_event (world s)); simplify_eq/=.
      apply no_mark_down_release_all.
    + unfold _run_break in Hj. destruct (loop (tool s)); simplify_eq/=.
      apply no_mark_down_release_all.
    + unfold _run_break in Hj.
      destruct (stop_event (world s)), (loop (tool s)); simplify_eq/=.
      apply no_mark_down_release_all.
    + destruct p0 as [[]|e|X e k]; simplify_eq/=.
      * apply no_mark_down_release_all.
      * destruct (handle (world s) e); simplify_eq/=.
    + specialize (Hfin _ _ _ Hi).
      destruct p0 as [[]|e|X e k]; simplify_eq/=.
      destruct Hfin as [_ Hk].
      destruct (handle (world s) e) as [w' x]; simplify_eq/=. apply Hk.
    + done.
  - unfold held_guarded. simpl. rewrite Hth.
    assert (∀ pc', before_sweep pc' →
      ∃ i0 pc0, Some i = Some i0
        ∧ <[i:=pc']> (threads s) !! i0 = Some pc0 ∧ before_sweep pc0) as Hret.
    { intros pc' Hpc'. exists i, pc'. by rewrite list_lookup_insert_eq. }
    destruct pc as [|[|step rest]|p0 rest|p0 exn0|exn0]; simpl.
    + right. apply Hret. by destruct (stop_event (world s)).
    + right. apply Hret, before_sweep_run_break.
    + right. apply Hret.
      destruct (stop_event (world s)); [apply before_sweep_run_break|done].
    + right. apply Hret. destruct p0 as [[]|e|X e k]; try done.
      simpl. by destruct (handle (world s) e).
    + destruct Hheld as [Hempty|(i0 & pc0 & Hi0 & Hpc0 & Hbs)].
      * left. specialize (Hfin _ _ _ Hi).
        destruct p0 as [[]|e|X e k]; try done.
        simpl. destruct Hfin as [He _].
        pose proof (handle_keeps_empty e _ He Hempty) as Hk.
        by destruct (handle (world s) e).
      * left. rewrite Hth in Hi0. injection Hi0 as <-.
        rewrite Hi in Hpc0. injection Hpc0 as <-. simpl in Hbs. by subst p0.
    + done.
Qed.

Lemma sys_inv_bg_steps (tids : list nat) (s : Sys) :
  sys_inv s → sys_inv (bg_steps tids s).
Proof.
  revert s. induction tids as [|i tids IH]; intros s Hinv; [done|].
  simpl. apply IH. by apply sys_inv_bg_step.
Qed.

Lemma sys_inv_start (s : Sys) : sys_inv s → sys_inv (start s).
Proof.
  intros (Hone & Hfin & Hheld). split; [by apply one_thread_start|].
  unfold start. destruct (is_running s) eqn:Hrun; [done|]. split.
  - intros j p exn Hj. simpl in Hj.
    destruct (decide (j < length (threads s))%nat) as [Hlt|Hge].
    + rewrite lookup_app_l in Hj by done. eauto.
    + rewrite lookup_app_r in Hj by lia.
      apply list_lookup_singleton_Some in Hj as [_ Hj].
      unfold _run_start in Hj. by destruct (loop (tool s)).
  - right. exists (length (threads s)), (_run_start (tool s)). simpl.
    split; [done|]. split; [|apply before_sweep_run_start].
    rewrite lookup_app_r by lia. by rewrite Nat.sub_diag.
Qed.

Lemma sys_inv_handle {X : Type} (e : Eff X) (s : Sys) :
  match e with EMarkDown _ => False | _ => True end →
  sys_inv s → sys_inv (set_world (handle (world s) e).1 s).
Proof.
  intros He (Hone & Hfin & Hheld). split; [done|]. split; [done|].
  destruct Hheld as [Hempty|Hbs]; [left|by right].
  by apply handle_keeps_empty.
Qed.

Lemma sys_inv_run_ctl {A : Type} (p : Prog A) (sched : list (list nat))
    (s : Sys) :
  no_mark_down p → sys_inv s → sys_inv (run_ctl sched s p).1.
Proof.
  revert sched s. induction p as [a|e|X e k IH]; intros sched s Hp Hinv; simpl;
    try by apply sys_inv_bg_steps.
  destruct Hp as [He Hk].
  pose proof (sys_inv_handle e _ He (sys_inv_bg_steps (hd [] sched) s Hinv))
    as Hinv'.
  destruct (handle _ e) as [w' x]. by apply IH.
Qed.

Lemma sys_inv_sys_step (s : Sys) (ev : Ev) : sys_inv s → sys_inv (sys_step s ev).
Proof.
  intros Hinv. destruct ev as [|sched|sched|sched|i]; simpl.
  - by apply sys_inv_start.
  - by apply sys_inv_run_ctl; [apply no_mark_down_stop|].
  - unfold toggle. destruct (is_running s).
    + by apply sys_inv_run_ctl; [apply no_mark_down_stop|].
    + by apply sys_inv_start, sys_inv_bg_steps.
  - by apply sys_inv_run_ctl; [apply no_mark_down_stop|].
  - by apply sys_inv_bg_step.
Qed.

Lemma sys_inv_init (config : Config) (s : Sys) :
  MacroTool_init config = Ok s → sys_inv s.
Proof.
  unfold MacroTool_init.
  destruct (if_truthy (cfg_trigger_hotkey config) _) as [th|]; [|done].
  destruct (if_truthy (cfg_quit_hotkey config) _) as [qh|]; [|done].
  destruct (if_truthy (cfg_trigger_key config) _) as [tk|]; [|done].
  destruct (if_truthy (cfg_quit_key config) _) as [qk|]; [|done].
  intros [= <-]. split; [|split].
  - by intros i pc Hi.
  - by intros i p exn Hi.
  - by left.
Qed.

Lemma sys_inv_run_events (evs : list Ev) (s : Sys) :
  sys_inv s → sys_inv (run_events s evs).
Proof.
  revert s. induction evs as [|ev evs IH]; intros s Hinv; [done|].
  simpl. apply IH. by apply sys_inv_sys_step.
Qed.

Lemma sys_inv_reachable (s : Sys) : reachable s → sys_inv s.
Proof.
  intros (config & s0 & evs & Hinit & ->).
  eapply sys_inv_run_events, sys_inv_init. done.
Qed.

Lemma idle_held_empty (s : Sys) :
  sys_inv s → is_running s = false → held (world s) = ∅.
Proof.
  intros (Hone & _ & [Hempty|(i & pc & Hth & Hi & Hbs)]) Hrun; [done|].
  unfold is_running in Hrun. rewrite Hth, Hi in Hrun.
  by rewrite (before_sweep_alive _ Hbs) in Hrun.
Qed.

Lemma bg_steps_idle (tids : list nat) (s : Sys) :
  one_thread s → is_running s = false → bg_steps tids s = s.
Proof.
  intros Hone Hrun. induction tids as [|i tids IH]; [done|]. simpl.
  destruct (threads s !! i) as [pc|] eqn:Hi.
  - rewrite (bg_step_dead _ _ _ Hi); [done|].
    by eapply not_running_all_dead.
  - by rewrite (bg_step_missing _ _ Hi).
Qed.

Lemma is_running_set_world (w : World) (s : Sys) :
  is_running (set_world w s) = is_running s.
Proof. done. Qed.

Lemma run_ctl_idle {A : Type} (p : Prog A) (sched : list (list nat)) (s : Sys) :
  one_thread s → is_running s = false →
  run_ctl sched s p = (set_world (exec (world s) p).1 s, (exec (world s) p).2).
Proof.
  revert sched s. induction p as [a|e|X e k IH]; intros sched s Hone Hrun;
    simpl; rewrite bg_steps_idle by done; try by destruct s.
  destruct (handle (world s) e) as [w' x]. by rewrite IH.
Qed.

(** *** Running a thread to the end of a step and of the cleanup *)

Lemma thread_run_add (t : MacroTool) (n m : nat) (c : World * Pc) :
  thread_run t (n + m) c = thread_run t n (thread_run t m c).
Proof. apply Nat.iter_add. Qed.

Lemma thread_run_S (t : MacroTool) (n : nat) (w : World) (pc : Pc) :
  thread_run t (S n) (w, pc) = thread_run t n (_run_step t w pc).
Proof. unfold thread_run. by rewrite Nat.iter_succ_r. Qed.

Lemma thread_run_in_step (t : MacroTool) (p : Prog unit) (rest : list Step)
    (w w1 : World) (r : Res unit) :
  exec w p = (w1, r) →
  ∃ n, thread_run t n (w, PcStep p rest) = (w1, PcStep (lift r) rest).
Proof.
  revert w. induction p as [a|e|X e k IH]; intros w Hex; simpl in Hex.
  - exists 0%nat. by simplify_eq.
  - exists 0%nat. by simplify_eq.
  - destruct (handle w e) as [w' x] eqn:Hh.
    destruct (IH _ _ Hex) as [n Hn]. exists (S n).
    rewrite thread_run_S. simpl. by rewrite Hh.
Qed.

Lemma thread_run_in_finally (t : MacroTool) (p : Prog unit) (exn : option Exn)
    (w w1 : World) (r : Res unit) :
  exec w p = (w1, r) →
  ∃ n, thread_run t n (w, PcFinally p exn) = (w1, PcFinally (lift r) exn).
Proof.
  revert w. induction p as [a|e|X e k IH]; intros w Hex; simpl in Hex.
  - exists 0%nat. by simplify_eq.
  - exists 0%nat. by simplify_eq.
  - destruct (handle w e) as [w' x] eqn:Hh.
    destruct (IH _ _ Hex) as [n Hn]. exists (S n).
    rewrite thread_run_S. simpl. by rewrite Hh.
Qed.

Lemma thread_run_error (t : MacroTool) (p : Prog unit) (rest : list Step)
    (w w1 : World) (e : Exn) :
  exec w p = (w1, Err e) →
  ∃ n, thread_run t n (w, PcStep p rest)
       = ((exec w1 release_all).1, PcExited (Some e)).
Proof.
  intros Hex.
  destruct (thread_run_in_step t p rest w w1 _ Hex) as [n1 Hn1].
  destruct (thread_run_in_finally t release_all (Some e) w1
              (exec w1 release_all).1 (Ok tt)) as [n2 Hn2].
  { by rewrite exec_release_all. }
  exists (1 + (n2 + (1 + n1)))%nat.
  rewrite thread_run_add, thread_run_add, thread_run_add, Hn1.
  change (thread_run t 1 (w1, PcStep (lift (Err e)) rest))
    with (w1, PcFinally release_all (Some e)).
  rewrite Hn2. done.
Qed.

Lemma bg_run_thread (n i : nat) (s : Sys) (pc : Pc) :
  threads s !! i = Some pc →
  bg_run n i s =
  {| tool := tool s;
     world := (thread_run (tool s) n (world s, pc)).1;
     threads := <[i := (thread_run (tool s) n (world s, pc)).2]> (threads s);
     thread := thread s |}.
Proof.
  intros Hi. pose proof (lookup_lt_Some _ _ _ Hi) as Hlt.
  induction n as [|n IH].
  - simpl. rewrite list_insert_id by done. by destruct s.
  - unfold bg_run, thread_run in *. rewrite !Nat.iter_succ, IH.
    erewrite bg_step_lookup; [|simpl; by rewrite list_lookup_insert_eq].
    simpl. by rewrite list_insert_insert_eq.
Qed.

(** *** Control operations under any schedule *)

Lemma handle_keeps_set {X : Type} (e : Eff X) (w : World) :
  stop_event w = true → stop_event (handle w e).1 = true.
Proof. by destruct e. Qed.

Lemma run_step_keeps_set (t : MacroTool) (w : World) (pc : Pc) :
  stop_event w = true → stop_event (_run_step t w pc).1 = true.
Proof.
  intros Hs.
  destruct pc as [|[|step rest]|p rest|p exn|exn]; simpl; try done.
  - by rewrite Hs.
  - by rewrite Hs.
  - destruct p as [[]|e|X e k]; try done. simpl.
    pose proof (handle_keeps_set e w Hs). by destruct (handle w e).
  - destruct p as [[]|e|X e k]; try done. simpl.
    pose proof (handle_keeps_set e w Hs). by destruct (handle w e).
Qed.

Lemma bg_steps_keeps_set (tids : list nat) (s : Sys) :
  stop_event (world s) = true → stop_event (world (bg_steps tids s)) = true.
Proof.
  revert s. induction tids as [|i tids IH]; intros s Hs; [done|].
  simpl. apply IH. destruct (threads s !! i) as [pc|] eqn:Hi.
  - rewrite (bg_step_lookup _ _ _ Hi). simpl. by apply run_step_keeps_set.
  - by rewrite (bg_step_missing _ _ Hi).
Qed.

Lemma run_ctl_keeps_set {A : Type} (p : Prog A) (sched : list (list nat))
    (s : Sys) :
  stop_event (world s) = true →
  stop_event (world (run_ctl sched s p).1) = true.
Proof.
  revert sched s. induction p as [a|e|X e k IH]; intros sched s Hs; simpl;
    try by apply bg_steps_keeps_set.
  pose proof (handle_keeps_set e _ (bg_steps_keeps_set (hd [] sched) s Hs))
    as Hs'.
  destruct (handle _ e) as [w' x]. by apply IH.
Qed.

Lemma no_raise_bind {A B : Type} (p : Prog A) (f : A → Prog B) :
  no_raise p → (∀ a, no_raise (f a)) → no_raise (p ≫= f).
Proof.
  intros Hp Hf. induction p as [a|e|X e k IH]; simpl in *; [done..|].
  intros x. by apply IH.
Qed.

Lemma no_raise_try_except {A : Type} (p : Prog A) (h : Exn → Prog A) :
  (∀ e, no_raise (h e)) → no_raise (try_except p h).
Proof.
  intros Hh. induction p as [a|e|X e k IH]; simpl in *; [done..|].
  intros x. by apply IH.
Qed.

Lemma no_raise_stop : no_raise stop.
Proof.
  unfold stop. apply no_raise_bind; [done|]. intros _.
  apply no_raise_bind; [|done]. intros tokens.
  induction tokens as [|t tokens IH]; [done|]. cbn [for_each].
  apply no_raise_bind; [|done]. by apply no_raise_try_except.
Qed.

Lemma run_ctl_no_raise {A : Type} (p : Prog A) (sched : list (list nat))
    (s : Sys) :
  no_raise p → ∃ a, (run_ctl sched s p).2 = Ok a.
Proof.
  revert sched s. induction p as [a|e|X e k IH]; intros sched s Hp; simpl;
    [by eexists|done|].
  destruct (handle _ e) as [w' x]. apply IH, Hp.
Qed.

Lemma run_ctl_Vis {A X : Type} (e : Eff X) (k : X → Prog A)
    (sched : list (list nat)) (s : Sys) :
  run_ctl sched s (Vis e k) =
  run_ctl (tl sched)
    (set_world (handle (world (bg_steps (hd [] sched) s)) e).1
       (bg_steps (hd [] sched) s))
    (k (handle (world (bg_steps (hd [] sched) s)) e).2).
Proof. simpl. by destruct (handle _ e). Qed.

Lemma stop_sys_any_schedule (sched : list (list nat)) (s : Sys) :
  (stop_sys sched s).2 = Ok tt
  ∧ stop_event (world (stop_sys sched s).1) = true.
Proof.
  split.
  - destruct (run_ctl_no_raise stop sched s no_raise_stop) as [[] Hr]. done.
  - unfold stop_sys, stop, set_stop. cbn [mbind Prog_bind bind].
    rewrite run_ctl_Vis. by apply run_ctl_keeps_set.
Qed.

End System.

(** *** Held tokens have a release call *)

Section Releasable.
Context `{Platform}.

Lemma no_mark_down_releasable {A : Type} (p : Prog A) :
  no_mark_down p → marks_releasable p.
Proof.
  induction p as [a|e|X e k IH]; simpl; [done..|].
  intros [He Hk]. split; [by destruct e|]. intros x. by apply IH.
Qed.

Lemma marks_releasable_bind {A B : Type} (p : Prog A) (f : A → Prog B) :
  marks_releasable p → (∀ a, marks_releasable (f a)) →
  marks_releasable (p ≫= f).
Proof.
  intros Hp Hf. induction p as [a|e|X e k IH]; simpl in *; [done..|].
  destruct Hp as [He Hk]. split; [done|]. intros x. by apply IH.
Qed.

Lemma marks_releasable_lift {A B : Type} (r : Res A) (f : A → Prog B) :
  (∀ a, r = Ok a → marks_releasable (f a)) → marks_releasable (lift r ≫= f).
Proof. intros Hf. destruct r as [a|e]; [by apply Hf|done]. Qed.

Lemma marks_releasable_press (c : Call) (t : string) :
  is_Some (release_call t) → marks_releasable (call c;; mark_down t).
Proof.
  intros Ht. apply marks_releasable_bind; [|by intros _; split].
  apply no_mark_down_releasable, no_mark_down_call.
Qed.

Lemma release_call_key_token (raw : string) :
  (USE_PDI = true ∨ ∃ key, parse_key_pynput raw = Ok key) →
  is_Some (release_call (key_token raw)).
Proof.
  unfold release_call.
  change (PyStr.split_once ":"%char (key_token raw)) with (Some ("key", raw)).
  cbv beta iota. rewrite decide_True by done.
  intros [->|[key ->]]; [done|]. by destruct USE_PDI.
Qed.

Lemma release_call_mouse_token (button : string) :
  (USE_PDI = false ∨ ∃ b, to_pdi_button button = Ok b) →
  is_Some (release_call (mouse_token button)).
Proof.
  unfold release_call.
  change (PyStr.split_once ":"%char (mouse_token button))
    with (Some ("mouse", button)).
  cbv beta iota. rewrite decide_False by done. rewrite decide_True by done.
  intros [->|[b ->]]; [done|]. by destruct USE_PDI.
Qed.

Lemma marks_releasable_calls {X : Type} (f : X → Call) (l : list X) :
  marks_releasable (for_each l (fun x => call (f x))).
Proof.
  apply no_mark_down_releasable.
  induction l as [|x l IH]; [done|]. cbn [for_each].
  apply no_mark_down_bind; [apply no_mark_down_call|done].
Qed.

Lemma marks_releasable_call_then {A : Type} (c : Call) (p : Prog A) :
  marks_releasable p → marks_releasable (call c;; p).
Proof.
  intros Hp. apply marks_releasable_bind; [|done].
  apply no_mark_down_releasable, no_mark_down_call.
Qed.

(** Leaves of [do_step]: one call, a call then a hold operation, or calls
    in a loop, after the lookups and parses that come first. *)
Ltac releasable_leaf :=
  first
    [ done
    | by destruct (step_key _)
    | apply no_mark_down_releasable, no_mark_down_call
    | apply marks_releasable_calls
    | apply marks_releasable_press;
      first [ apply release_call_key_token | apply release_call_mouse_token ];
      by eauto
    | apply marks_releasable_call_then; first [ by split | releasable_leaf ]
    | apply marks_releasable_lift; intros ? ?; releasable_leaf
    | apply marks_releasable_bind; [ releasable_leaf | intros ?; releasable_leaf ] ].

Lemma marks_releasable_do_step (step : Step) : marks_releasable (do_step step).
Proof.
  unfold do_step. case_decide; [by split|].
  apply marks_releasable_bind; [by split|]. intros [|]; [done|].
  destruct USE_PDI eqn:Hpdi; repeat case_decide; releasable_leaf.
Qed.

Lemma handle_releasable {X : Type} (e : Eff X) (w : World) :
  match e with EMarkDown t => is_Some (release_call t) | _ => True end →
  (∀ t, t ∈ held w → is_Some (release_call t)) →
  ∀ t, t ∈ held (handle w e).1 → is_Some (release_call t).
Proof.
  intros He Hw t. destruct e; simpl; try apply Hw.
  - intros [Ht| ->%elem_of_singleton]%elem_of_union; [by apply Hw|done].
  - intros [Ht _]%elem_of_difference. by apply Hw.
  - by intros ?%not_elem_of_empty.
Qed.

Lemma no_mark_down_effect_releasable {X : Type} (e : Eff X) :
  match e with EMarkDown _ => False | _ => True end →
  match e with EMarkDown t => is_Some (release_call t) | _ => True end.
Proof. by destruct e. Qed.

Lemma rel_inv_bg_step (i : nat) (s : Sys) :
  sys_inv s → rel_inv s → rel_inv (bg_step i s).
Proof.
  intros (Hone & Hfin & _) (Hheld & Hsteps).
  destruct (threads s !! i) as [pc|] eqn:Hi;
    [|by rewrite (bg_step_missing _ _ Hi)].
  pose proof (lookup_lt_Some _ _ _ Hi) as Hlt.
  rewrite (bg_step_lookup _ _ _ Hi). split; simpl.
  - destruct pc as [|[|step rest]|p0 rest|p0 exn0|exn0]; simpl; try done.
    + by destruct (stop_event (world s)).
    + by destruct (stop_event (world s)).
    + specialize (Hsteps _ _ _ Hi).
      destruct p0 as [[]|e|X e k]; try done. simpl.
      destruct Hsteps as [He _].
      pose proof (handle_releasable e _ He Hheld) as Hh.
      by destruct (handle (world s) e).
    + specialize (Hfin _ _ _ Hi).
      destruct p0 as [[]|e|X e k]; try done. simpl.
      destruct Hfin as [He _].
      pose proof (handle_releasable e _
                    (no_mark_down_effect_releasable e He) Hheld) as Hh.
      by destruct (handle (world s) e).
  - intros j p rest Hj.
    destruct (decide (j = i)) as [->|Hne];
      [|rewrite list_lookup_insert_ne in Hj by done; eauto].
    rewrite list_lookup_insert_eq in Hj by done. injection Hj as Hj.
    destruct pc as [|[|step rest0]|p0 rest0|p0 exn0|exn0]; simpl in Hj.
    + by destruct (stop_event (world s)).
    + unfold _run_break in Hj. by destruct (loop (tool s)).
    + unfold _run_break in Hj.
      destruct (stop_event (world s)), (loop (tool s)); simplify_eq/=;
        apply marks_releasable_do_step.
    + specialize (Hsteps _ _ _ Hi).
      destruct p0 as [[]|e|X e k]; simplify_eq/=.
      destruct Hsteps as [_ Hk].
      destruct (handle (world s) e) as [w' x]; simplify_eq/=. apply Hk.
    + destruct p0 as [[]|e|X e k]; simplify_eq/=.
      destruct (handle (world s) e); simplify_eq/=.
    + done.
Qed.

Lemma inv_bg_steps (tids : list nat) (s : Sys) :
  sys_inv s ∧ rel_inv s → sys_inv (bg_steps tids s) ∧ rel_inv (bg_steps tids s).
Proof.
  revert s. induction tids as [|i tids IH]; intros s [Hinv Hrel]; [done|].
  simpl. apply IH. split; [by apply sys_inv_bg_step|by apply rel_inv_bg_step].
Qed.

Lemma rel_inv_start (s : Sys) : rel_inv s → rel_inv (start s).
Proof.
  intros (Hheld & Hsteps). unfold start. destruct (is_running s); [done|].
  split; [done|]. intros j p rest Hj. simpl in Hj.
  destruct (decide (j < length (threads s))%nat) as [Hlt|Hge].
  - rewrite lookup_app_l in Hj by done. eauto.
  - rewrite lookup_app_r in Hj by lia.
    apply list_lookup_singleton_Some in Hj as [_ Hj].
    unfold _run_start in Hj. by destruct (loop (tool s)).
Qed.

Lemma rel_inv_run_ctl {A : Type} (p : Prog A) (sched : list (list nat))
    (s : Sys) :
  no_mark_down p → sys_inv s ∧ rel_inv s → rel_inv (run_ctl sched s p).1.
Proof.
  revert sched s. induction p as [a|e|X e k IH]; intros sched s Hp Hinv; simpl;
    try by apply inv_bg_steps.
  destruct Hp as [He Hk].
  destruct (inv_bg_steps (hd [] sched) s Hinv) as [Hinv' [Hheld Hsteps]].
  pose proof (sys_inv_handle e _ He Hinv') as Hinv''.
  pose proof (handle_releasable e _
                (no_mark_down_effect_releasable e He) Hheld) as Hh.
  destruct (handle _ e) as [w' x]. apply IH; [done|]. by split.
Qed.

Lemma rel_inv_sys_step (s : Sys) (ev : Ev) :
  sys_inv s ∧ rel_inv s → rel_inv (sys_step s ev).
Proof.
  intros Hinv. destruct ev as [|sched|sched|sched|i]; simpl.
  - apply rel_inv_start, Hinv.
  - by apply rel_inv_run_ctl; [apply no_mark_down_stop|].
  - unfold toggle. destruct (is_running s).
    + by apply rel_inv_run_ctl; [apply no_mark_down_stop|].
    + apply rel_inv_start. apply (inv_bg_steps _ _ Hinv).
  - by apply rel_inv_run_ctl; [apply no_mark_down_stop|].
  - apply rel_inv_bg_step; apply Hinv.
Qed.

Lemma rel_inv_reachable (s : Sys) : reachable s → rel_inv s.
Proof.
  intros (config & s0 & evs & Hinit & ->).
  assert (sys_inv s0 ∧ rel_inv s0) as Hinv0.
  { split; [by eapply sys_inv_init|]. revert Hinit. unfold MacroTool_init.
    destruct (if_truthy (cfg_trigger_hotkey config) _) as [th|]; [|done].
    destruct (if_truthy (cfg_quit_hotkey config) _) as [qh|]; [|done].
    destruct (if_truthy (cfg_trigger_key config) _) as [tk|]; [|done].
    destruct (if_truthy (cfg_quit_key config) _) as [qk|]; [|done].
    intros [= <-]. split; [by intros t ?%not_elem_of_empty|].
    by intros i p rest Hi. }
  clear Hinit. revert s0 Hinv0.
  induction evs as [|ev evs IH]; intros s0 Hinv0; [apply Hinv0|].
  simpl. apply IH.
  split; [apply sys_inv_sys_step, Hinv0|by apply rel_inv_sys_step].
Qed.

End Releasable.

(** * The claims *)

(** ** Step executor *)

(** C8. A step other than [wait] that finds the cancellation signal set is
    skipped: [do_step] returns normally with the trace (no backend call, no
    hold operation), the held set and the signal exactly as they were. *)
Theorem cancelled_step_is_skipped `{Platform} (step : Step) (w : World) :
  step_type step ≠ Some "wait" →
  stop_event w = true →
  exec w (do_step step) = (w, Ok tt).
Proof.
  intros Ht Hs. unfold do_step.
  destruct (decide (step_type step = Some "wait")) as [Hwait|_]; [done|].
  rewrite exec_bind. cbn [exec is_set handle]. by rewrite Hs.
Qed.

Lemma cancelled_step_is_skipped_witness :
  let P := pynput_platform always_ok in
  let w := set_stop_event true (idle_world {["mouse:left"]}) in
  @exec P _ w (@do_step P (with_action "press" (key_step "a"))) = (w, Ok tt).
Proof.
  apply (@cancelled_step_is_skipped (pynput_platform always_ok)); done.
Defined.

(** C10. A [key] or [mouse_button] step without an ["action"] entry runs the
    very program of the same step with [action = "tap"]: it performs no hold
    operation, leaves the held set as it was, and with the signal clear it
    issues the tap calls (press then release of the key on pynput, one
    press/click call of the library otherwise) until one of them raises. *)
Theorem missing_action_is_tap `{Platform} (step : Step) (w : World) :
  step_action step = None →
  step_type step = Some "key" ∨ step_type step = Some "mouse_button" →
  do_step step = do_step (with_action "tap" step)
  ∧ no_hold_op (do_step step)
  ∧ held (exec w (do_step step)).1 = held w
  ∧ (stop_event w = false →
     match tap_calls step with
     | Err e => exec w (do_step step) = (w, Err e)
     | Ok cs =>
         exec w (do_step step) =
         (extend (Backend <$> attempted (trace w) cs) w,
          calls_result (trace w) cs)
     end).
Proof.
  intros Ha Ht.
  assert (default "tap" (step_action step) = "tap") as Hd by (by rewrite Ha).
  split; [|split; [by apply no_hold_op_tap_step|]].
  { unfold do_step. simpl. by rewrite Ha. }
  assert (stop_event w = false →
     match tap_calls step with
     | Err e => exec w (do_step step) = (w, Err e)
     | Ok cs =>
         exec w (do_step step) =
         (extend (Backend <$> attempted (trace w) cs) w,
          calls_result (trace w) cs)
     end) as Hrun.
  { intros Hs. rewrite (exec_tap_step step w Hs Hd Ht).
    by destruct (tap_calls step). }
  split; [|done].
  destruct (stop_event w) eqn:Hs.
  - rewrite exec_do_step_not_wait; [done| |done]. destruct Ht as [->| ->]; done.
  - specialize (Hrun eq_refl). destruct (tap_calls step); by rewrite Hrun.
Qed.

Lemma missing_action_is_tap_witness :
  let P := pynput_platform always_ok in
  let w := idle_world {["mouse:left"]} in
  @do_step P (key_step "a") = @do_step P (with_action "tap" (key_step "a"))
  ∧ no_hold_op (@do_step P (key_step "a"))
  ∧ held (@exec P _ w (@do_step P (key_step "a"))).1 = held w
  ∧ (stop_event w = false →
     @exec P _ w (@do_step P (key_step "a")) =
     (extend [Backend (K_press (KeyCode_from_char "a"));
              Backend (K_release (KeyCode_from_char "a"))] w, Ok tt)).
Proof.
  apply (@missing_action_is_tap (pynput_platform always_ok) (key_step "a")
           (idle_world {["mouse:left"]})); [done|by left].
Defined.

(** C7. A [key] or [mouse_button] step with [action = "press"], run with the
    signal clear, issues the backend press and then marks the token down;
    when the press raises, the step ends with that error right after the
    call: no [mark_down] is logged and the held set is the one before. *)
Theorem press_marks_down_only_after_success `{Platform} (step : Step)
    (w : World) :
  stop_event w = false →
  step_action step = Some "press" →
  step_type step = Some "key" ∨ step_type step = Some "mouse_button" →
  let '(w', r) := exec w (do_step step) in
  match press_call step with
  | Err e => w' = w ∧ r = Err e
  | Ok (c, token) =>
      if backend_ok (trace w) c
      then r = Ok tt
           ∧ trace w' = trace w ++ [Backend c; MarkDown token]
           ∧ held w' = held w ∪ {[token]}
      else r = Err (BackendError c)
           ∧ trace w' = trace w ++ [Backend c]
           ∧ held w' = held w
  end.
Proof.
  intros Hs Ha Ht. rewrite (exec_press_step step w Hs Ha Ht).
  destruct (press_call step) as [[c token]|e]; [|done].
  by destruct (backend_ok (trace w) c).
Qed.

Lemma press_marks_down_only_after_success_witness :
  let P := pynput_platform press_fails in
  let step := with_action "press" (key_step "a") in
  let w := idle_world ∅ in
  let '(w', r) := @exec P _ w (@do_step P step) in
  r = Err (BackendError (K_press (KeyCode_from_char "a")))
  ∧ trace w' = trace w ++ [Backend (K_press (KeyCode_from_char "a"))]
  ∧ held w' = held w.
Proof.
  apply (@press_marks_down_only_after_success (pynput_platform press_fails)
           (with_action "press" (key_step "a")) (idle_world ∅));
    [done|done|by left].
Defined.

Lemma mapM_res_Forall2 {A B : Type} (f : A → Res B) (l : list A)
    (ys : list B) :
  Forall2 (fun x y => f x = Ok y) l ys → mapM_res f l = Ok ys.
Proof.
  induction 1 as [|x y l ys Hx _ IH]; [done|]. simpl. by rewrite Hx, IH.
Qed.

Lemma mapM_res_first_error {A B : Type} (f : A → Res B) (pre : list A)
    (x : A) (post : list A) (e : Exn) :
  Forall (fun x' => ∃ y, f x' = Ok y) pre →
  f x = Err e →
  mapM_res f (pre ++ x :: post) = Err e.
Proof.
  intros Hpre Hx. induction Hpre as [|x' pre [y Hy] _ IH]; simpl.
  - by rewrite Hx.
  - by rewrite Hy, IH.
Qed.

(** C5, as the code has it.  A [combo] step over [k1 .. kn], run with the
    signal clear, performs no [mark_down], [mark_up] or [release_all] and
    leaves the held set as it was.  Its calls are the [n] presses of
    [k1 .. kn] in this order followed by the [n] releases in the order
    [kn .. k1]: all of them when the backend accepts them, and otherwise
    those up to the first call that raises, with whose error the step ends.
    On pynput this is for keys that all parse; the first key that does not
    parse ends the step with its error before any call. *)
Theorem combo_presses_then_releases_reversed `{Platform} (step : Step)
    (w : World) :
  step_type step = Some "combo" →
  stop_event w = false →
  let raw_keys := default [] (step_keys step) in
  let issues (cs : list Call) :=
    exec w (do_step step) =
    (extend (Backend <$> attempted (trace w) cs) w, calls_result (trace w) cs)
    ∧ attempted (trace w) cs `prefix_of` cs
    ∧ (accepted (trace w) cs = true →
       exec w (do_step step) = (extend (Backend <$> cs) w, Ok tt)) in
  no_hold_op (do_step step)
  ∧ held (exec w (do_step step)).1 = held w
  ∧ (USE_PDI = true →
     issues (((fun rk => PDI_keyDown (to_pdi_key rk)) <$> raw_keys)
             ++ ((fun rk => PDI_keyUp (to_pdi_key rk)) <$> reverse raw_keys)))
  ∧ (USE_PDI = false →
     (∀ keys,
        Forall2 (fun rk key => parse_key_pynput rk = Ok key) raw_keys keys →
        length keys = length raw_keys
        ∧ issues ((K_press <$> keys) ++ (K_release <$> reverse keys)))
     ∧ ∀ pre rk post e,
         raw_keys = pre ++ rk :: post →
         Forall (fun rk' => ∃ key, parse_key_pynput rk' = Ok key) pre →
         parse_key_pynput rk = Err e →
         exec w (do_step step) = (w, Err e)).
Proof.
  intros Ht Hs raw_keys issues.
  assert (∀ cs, combo_calls raw_keys = Ok cs → issues cs) as Hissues.
  { intros cs Hcs. unfold issues.
    rewrite (exec_combo_step step w Hs Ht). fold raw_keys. rewrite Hcs.
    split; [done|]. split; [apply attempted_prefix|].
    intros Hacc. by destruct (attempted_accepted _ _ Hacc) as [-> ->]. }
  split; [by apply no_hold_op_combo_step|].
  split.
  { rewrite (exec_combo_step step w Hs Ht).
    by destruct (combo_calls _). }
  split.
  - intros Hpdi. apply Hissues. unfold combo_calls. by rewrite Hpdi.
  - intros Hpdi. split.
    + intros keys Hkeys. split; [symmetry; by eapply Forall2_length|].
      apply Hissues. unfold combo_calls. rewrite Hpdi.
      by rewrite (mapM_res_Forall2 _ _ _ Hkeys).
    + intros pre rk post e Hraw Hpre Hrk.
      rewrite (exec_combo_step step w Hs Ht). fold raw_keys.
      unfold combo_calls. rewrite Hpdi, Hraw.
      by rewrite (mapM_res_first_error _ _ _ _ _ Hpre Hrk).
Qed.

Lemma combo_presses_then_releases_reversed_witness :
  let P := pynput_platform always_ok in
  let step := combo_step ["Key.ctrl"; "Key.shift"; "c"] in
  let w := idle_world ∅ in
  step_type step = Some "combo"
  ∧ stop_event w = false
  ∧ @exec P _ w (@do_step P step) =
    (extend (Backend <$> [K_press (Key "ctrl"); K_press (Key "shift");
                          K_press (KeyCode_from_char "c");
                          K_release (KeyCode_from_char "c");
                          K_release (Key "shift"); K_release (Key "ctrl")]) w,
     Ok tt).
Proof.
  intros P step w. split; [reflexivity|]. split; [reflexivity|].
  destruct (@combo_presses_then_releases_reversed P step w eq_refl eq_refl)
    as (_ & _ & _ & Hpynput).
  destruct (Hpynput eq_refl) as [Hkeys _].
  destruct (Hkeys [Key "ctrl"; Key "shift"; KeyCode_from_char "c"])
    as (_ & _ & _ & Hacc).
  { repeat constructor; vm_compute; reflexivity. }
  apply Hacc. reflexivity.
Defined.

(** C5 as stated fails when a call raises: on pydirectinput, with the press
    of ["b"] raising, the combo over ["a"; "b"] issues the two presses and
    no release, so ["a"] stays down; the step ends with the error. *)
Lemma combo_failed_press_skips_releases :
  ¬ (∀ (P : Platform) (raw_keys : list string) (w : World),
       @USE_PDI P = true →
       stop_event w = false →
       calls_of (trace (@exec P _ w (@do_step P (combo_step raw_keys))).1)
       = calls_of (trace w)
         ++ ((fun rk => PDI_keyDown (to_pdi_key rk)) <$> raw_keys)
         ++ ((fun rk => PDI_keyUp (to_pdi_key rk)) <$> reverse raw_keys)).
Proof.
  intros Hall.
  specialize (Hall (pdi_platform keyDown_b_fails) ["a"; "b"] (idle_world ∅)
                eq_refl eq_refl).
  vm_compute in Hall. discriminate Hall.
Qed.

(** ** Hold tracker *)

(** C3. [release_all] snapshots and empties the held set and then attempts
    the release call of each token of the snapshot: one call per token, in
    the order of the snapshot, in every state reached from construction (and
    whenever each held token has a release call).  A second [release_all]
    right after the first issues no backend call, and neither does one on an
    empty held set. *)
Theorem release_all_idempotent `{Platform} (s : Sys) :
  let w := world s in
  let tokens := elements (held w) in
  let w1 := (exec w release_all).1 in
  let w2 := (exec w1 release_all).1 in
  held w1 = ∅
  ∧ trace w1 =
    trace w ++ ReleaseAll tokens :: (Backend <$> omap release_call tokens)
  ∧ calls_of (trace w1) = calls_of (trace w) ++ omap release_call tokens
  ∧ NoDup tokens
  ∧ (reachable s ∨ (∀ t, t ∈ held w → is_Some (release_call t)) →
     Forall2 (fun t c => release_call t = Some c) tokens
       (omap release_call tokens))
  ∧ held w2 = ∅
  ∧ calls_of (trace w2) = calls_of (trace w1)
  ∧ (held w = ∅ → calls_of (trace w1) = calls_of (trace w)).
Proof.
  intros w tokens w1 w2. subst w2 w1. rewrite !exec_release_all. simpl.
  rewrite elements_empty. simpl. fold tokens.
  split; [done|]. split; [done|].
  assert (calls_of (trace w ++ ReleaseAll tokens
                      :: (Backend <$> omap release_call tokens))
          = calls_of (trace w) ++ omap release_call tokens) as Hcalls.
  { rewrite calls_of_app. f_equal. simpl. apply calls_of_Backend. }
  split; [done|]. split; [apply NoDup_elements|].
  split; [|split; [done|split]].
  - intros Hrel.
    assert (∀ t, t ∈ tokens → is_Some (release_call t)) as Hrel'.
    { intros t Ht%elem_of_elements.
      destruct Hrel as [Hreach|Hrel]; [|by apply Hrel].
      by apply (rel_inv_reachable s Hreach). }
    clear Hrel Hcalls. induction tokens as [|t tokens' IH]; [constructor|].
    simpl. destruct (Hrel' t) as [c Hc]; [by left|]. rewrite Hc.
    constructor; [done|]. apply IH. intros t' Ht'. apply Hrel'. by right.
  - rewrite calls_of_app. simpl. by rewrite app_nil_r.
  - intros Hempty. rewrite Hcalls. subst tokens.
    rewrite Hempty, elements_empty. simpl. by rewrite app_nil_r.
Qed.

Lemma release_all_idempotent_witness :
  let P := pynput_platform always_ok in
  let s := @run_events P (fresh_sys [with_action "press" (key_step "a")])
             [EvStart; EvBg 0; EvBg 0; EvBg 0; EvBg 0] in
  let w := world s in
  let w1 := (@exec P _ w (@release_all P)).1 in
  let w2 := (@exec P _ w1 (@release_all P)).1 in
  @reachable P s
  ∧ elements (held w) = ["key:a"]
  ∧ held w1 = ∅
  ∧ calls_of (trace w1) =
    calls_of (trace w) ++ omap (@release_call P) (elements (held w))
  ∧ Forall2 (fun t c => @release_call P t = Some c) (elements (held w))
      (omap (@release_call P) (elements (held w)))
  ∧ calls_of (trace w2) = calls_of (trace w1).
Proof.
  intros P s w w1 w2.
  assert (@reachable P s) as Hreach.
  { exists (hotkey_config [with_action "press" (key_step "a")]),
      (fresh_sys [with_action "press" (key_step "a")]).
    eexists. split; [vm_compute; reflexivity|reflexivity]. }
  destruct (@release_all_idempotent P s)
    as (H1 & _ & H3 & _ & H5 & _ & H7 & _).
  split; [exact Hreach|]. split; [vm_compute; reflexivity|].
  exact (conj H1 (conj H3 (conj (H5 (or_introl Hreach)) H7))).
Defined.

(** C4. Whatever calls the backend rejects, [release_all] returns normally,
    leaves the held set empty, and attempts the release call of every token
    that was held: a release that raises is swallowed and the sweep goes on
    with the remaining tokens. *)
Theorem release_all_swallows_failures `{Platform} (w : World) :
  let tokens := elements (held w) in
  let '(w', r) := exec w release_all in
  r = Ok tt
  ∧ held w' = ∅
  ∧ trace w' =
    trace w ++ ReleaseAll tokens :: (Backend <$> omap release_call tokens)
  ∧ ∀ t c, t ∈ held w → release_call t = Some c →
      Backend c ∈ drop (length (trace w)) (trace w').
Proof.
  intros tokens. rewrite exec_release_all. simpl. fold tokens.
  repeat split. intros t c Ht Hc.
  rewrite drop_app_length. right. apply list_elem_of_fmap. exists c.
  split; [done|]. apply list_elem_of_omap. exists t. split; [|done].
  by apply elem_of_elements.
Qed.

Lemma release_all_swallows_failures_witness :
  let P := pynput_platform release_fails in
  let w := idle_world {["key:a"; "key:b"]} in
  let '(w', r) := @exec P _ w (@release_all P) in
  r = Ok tt
  ∧ held w' = ∅
  ∧ Backend (K_release (KeyCode_from_char "a")) ∈ drop (length (trace w)) (trace w')
  ∧ Backend (K_release (KeyCode_from_char "b")) ∈ drop (length (trace w)) (trace w').
Proof.
  intros P w.
  pose proof (@release_all_swallows_failures P w) as Hthm.
  destruct (@exec P _ w (@release_all P)) as [w' r].
  destruct Hthm as (Hr & Hh & _ & Hall).
  split; [exact Hr|]. split; [exact Hh|]. split.
  - apply (Hall "key:a"); [|vm_compute; reflexivity].
    change ("key:a" ∈ ({["key:a"; "key:b"]} : gset string)). set_solver.
  - apply (Hall "key:b"); [|vm_compute; reflexivity].
    change ("key:b" ∈ ({["key:a"; "key:b"]} : gset string)). set_solver.
Defined.

(** ** Construction *)

(** C6, as the code has it.  Construction does not look at the steps: it
    keeps the ["macro"] list as given and succeeds whatever the list holds.
    An action outside tap/press/release or a mode outside relative/absolute
    is rejected when the step is executed with the signal clear: [do_step]
    raises before any backend call or hold operation. *)
Theorem enum_checked_when_executed `{Platform} (config : Config) (s : Sys)
    (steps : list Step) (step : Step) (w : World) :
  MacroTool_init config = Ok s →
  macro (tool s) = default [] (cfg_macro config)
  ∧ (∃ s', MacroTool_init (with_macro steps config) = Ok s'
           ∧ macro (tool s') = steps)
  ∧ (out_of_enum step → stop_event w = false →
     exec w (do_step step) = (w, Err (enum_error step))).
Proof.
  intros Hinit. destruct (MacroTool_init_macro config s steps Hinit) as [? ?].
  repeat split; try done. intros Hbad Hs. by apply exec_out_of_enum.
Qed.

Lemma enum_checked_when_executed_witness :
  let P := pynput_platform always_ok in
  let step := with_action "hold" (key_step "a") in
  let w := idle_world ∅ in
  @MacroTool_init P (hotkey_config []) = Ok (fresh_sys [])
  ∧ (∃ s', @MacroTool_init P (with_macro [step] (hotkey_config [])) = Ok s'
           ∧ macro (tool s') = [step])
  ∧ (out_of_enum step → stop_event w = false →
     @exec P _ w (@do_step P step) = (w, Err (@enum_error P step))).
Proof.
  intros P step w.
  assert (@MacroTool_init P (hotkey_config []) = Ok (fresh_sys [])) as Hinit
    by (vm_compute; reflexivity).
  destruct (@enum_checked_when_executed P (hotkey_config []) (fresh_sys [])
              [step] step w Hinit) as (_ & H2 & H3).
  exact (conj Hinit (conj H2 H3)).
Defined.

(** C6 as stated fails: a step with [action = "hold"] passes construction
    and raises [ValueError] when it is executed. *)
Lemma bad_action_built_then_raised :
  let P := pynput_platform always_ok in
  let step := with_action "hold" (key_step "a") in
  @MacroTool_init P (hotkey_config [step]) = Ok (fresh_sys [step])
  ∧ out_of_enum step
  ∧ @exec P _ (world (fresh_sys [step])) (@do_step P step)
    = (world (fresh_sys [step]), Err (ValueError BadKeyAction)).
Proof.
  intros P step. split; [vm_compute; reflexivity|]. split.
  - left. split; [done|]. repeat split; vm_compute; discriminate.
  - vm_compute. reflexivity.
Qed.

(** ** Runner *)

Section Reachable.
Context `{Platform}.

Lemma reachable_init (config : Config) (s : Sys) :
  MacroTool_init config = Ok s → reachable s.
Proof. intros Hinit. by exists config, s, []. Qed.

Lemma reachable_sys_step (s : Sys) (ev : Ev) :
  reachable s → reachable (sys_step s ev).
Proof.
  intros (config & s0 & evs & Hinit & ->). exists config, s0, (evs ++ [ev]).
  split; [done|]. unfold run_events. by rewrite foldl_app.
Qed.

Lemma run_ctl_nil {A : Type} (p : Prog A) (s : Sys) :
  run_ctl [] s p = (set_world (exec (world s) p).1 s, (exec (world s) p).2).
Proof.
  revert s. induction p as [a|e|X e k IH]; intros s; simpl; try by destruct s.
  destruct (handle (world s) e) as [w' x]. by rewrite IH.
Qed.

Lemma is_running_start (s : Sys) : is_running (start s) = true.
Proof.
  unfold start. destruct (is_running s) eqn:Hrun; [done|].
  unfold is_running. simpl. rewrite lookup_app_r by lia.
  rewrite Nat.sub_diag. simpl. unfold _run_start. by destruct (loop (tool s)).
Qed.

End Reachable.



(** C1.  When the program of the step a thread is in raises [e], the
    thread goes on, by its own actions alone, through the [finally] block:
    it runs [release_all] on the state the failing step left (no later step
    is started), which empties the held set, and then ends, [e] being handed
    to the top of the thread.  Only that thread ends: the tool,
    [MacroTool.thread], the signal and the other threads are as the failing
    step left them, and the runner is idle when the thread was the current
    one. *)
Theorem run_error_cleanup `{Platform} (s : Sys) (i : nat) (p : Prog unit)
    (rest : list Step) (w1 : World) (e : Exn) :
  threads s !! i = Some (PcStep p rest) →
  exec (world s) p = (w1, Err e) →
  ∃ n, let s' := bg_run n i s in
    threads s' !! i = Some (PcExited (Some e))
    ∧ world s' = (exec w1 release_all).1
    ∧ trace (world s') =
      trace w1 ++ ReleaseAll (elements (held w1))
        :: (Backend <$> omap release_call (elements (held w1)))
    ∧ held (world s') = ∅
    ∧ stop_event (world s') = stop_event w1
    ∧ tool s' = tool s
    ∧ thread s' = thread s
    ∧ (∀ j, j ≠ i → threads s' !! j = threads s !! j)
    ∧ (thread s = Some i → is_running s' = false).
Proof.
  intros Hi Hex.
  destruct (thread_run_error (tool s) p rest (world s) w1 e Hex) as [n Hn].
  exists n. cbv zeta. rewrite (bg_run_thread n i s _ Hi), Hn.
  pose proof (lookup_lt_Some _ _ _ Hi) as Hlt.
  rewrite exec_release_all. simpl.
  split; [by rewrite list_lookup_insert_eq|]. repeat split; try done.
  - intros j Hj. by rewrite list_lookup_insert_ne.
  - intros Hth. unfold is_running. simpl.
    by rewrite Hth, list_lookup_insert_eq.
Qed.

Lemma run_error_cleanup_witness :
  let P := pynput_platform always_ok in
  let s := @run_events P (fresh_sys [empty_step "jump"; key_step "a"])
             [EvStart; EvBg 0] in
  let e := ValueError (UnknownStepType (Some "jump")) in
  threads s !! 0%nat = Some (PcStep (@do_step P (empty_step "jump")) [key_step "a"])
  ∧ @exec P _ (world s) (@do_step P (empty_step "jump")) = (world s, Err e)
  ∧ ∃ n, let s' := @bg_run P n 0 s in
      threads s' !! 0%nat = Some (PcExited (Some e))
      ∧ trace (world s') = [ReleaseAll []]
      ∧ (thread s = Some 0%nat → is_running s' = false).
Proof.
  intros P s e.
  assert (threads s !! 0%nat
          = Some (PcStep (@do_step P (empty_step "jump")) [key_step "a"]))
    as Hi by (vm_compute; reflexivity).
  assert (@exec P _ (world s) (@do_step P (empty_step "jump"))
          = (world s, Err e)) as Hex by (vm_compute; reflexivity).
  split; [exact Hi|]. split; [exact Hex|].
  destruct (@run_error_cleanup P s 0%nat _ _ _ _ Hi Hex)
    as (n & H1 & _ & H3 & _ & _ & _ & _ & _ & H9).
  exists n. split; [exact H1|]. split; [|exact H9].
  etrans; [exact H3|]. vm_compute. reflexivity.
Defined.

(** *** After the snapshot of the sweep *)

Section Quiet.
Context `{Platform}.

Lemma no_mark_down_settled {A : Type} (p : Prog A) :
  no_mark_down p → settled p.
Proof.
  induction p as [a|e|X e k IH]; [done..|]. intros [He Hk]. simpl.
  destruct e; try done; try (intros x; by apply IH). by apply IH.
Qed.

Lemma settled_do_step (step : Step) : settled (do_step step).
Proof.
  unfold do_step. case_decide; [by intros []|]. done.
Qed.

Lemma settled_handle {A X : Type} (e : Eff X) (k : X → Prog A) (w : World) :
  stop_event w = true →
  held w = ∅ →
  settled (Vis e k) →
  stop_event (handle w e).1 = true
  ∧ held (handle w e).1 = ∅
  ∧ settled (k (handle w e).2).
Proof.
  intros Hs Hw Hp. split; [by apply handle_keeps_set|].
  destruct e; simpl in *; try done.
  - rewrite Hw. split; [apply empty_difference_L|done].
  - by rewrite Hs.
Qed.

Lemma settled_run_step (t : MacroTool) (w : World) (pc : Pc) :
  stop_event w = true →
  held w = ∅ →
  settled_pc pc →
  stop_event (_run_step t w pc).1 = true
  ∧ held (_run_step t w pc).1 = ∅
  ∧ settled_pc (_run_step t w pc).2.
Proof.
  intros Hs Hw Hpc.
  pose proof (no_mark_down_settled _ no_mark_down_release_all) as Hrel.
  destruct pc as [|[|step rest]|p rest|p exn|exn]; simpl.
  - by rewrite Hs.
  - unfold _run_break. by destruct (loop t).
  - rewrite Hs. unfold _run_break. by destruct (loop t).
  - destruct p as [[]|e|X e k]; [done..|]. simpl.
    pose proof (settled_handle e k w Hs Hw Hpc) as Hh.
    by destruct (handle w e).
  - destruct p as [[]|e|X e k]; [done..|]. simpl.
    pose proof (settled_handle e k w Hs Hw Hpc) as Hh.
    by destruct (handle w e).
  - done.
Qed.

Lemma quiet_bg_step (i : nat) (s : Sys) : quiet s → quiet (bg_step i s).
Proof.
  intros (Hs & Hw & Hth).
  destruct (threads s !! i) as [pc|] eqn:Hi;
    [|by rewrite (bg_step_missing _ _ Hi)].
  rewrite (bg_step_lookup _ _ _ Hi).
  destruct (settled_run_step (tool s) (world s) pc Hs Hw (Hth _ _ Hi))
    as (Hs' & Hw' & Hpc').
  split; [done|]. split; [done|]. simpl. intros j pc' Hj.
  destruct (decide (i = j)) as [->|Hne].
  - rewrite list_lookup_insert_eq in Hj by (by eapply lookup_lt_Some).
    by simplify_eq.
  - rewrite list_lookup_insert_ne in Hj by done. by eapply Hth.
Qed.

Lemma quiet_bg_steps (tids : list nat) (s : Sys) :
  quiet s → quiet (bg_steps tids s).
Proof.
  revert s. induction tids as [|i tids IH]; intros s Hq; [done|].
  simpl. by apply IH, quiet_bg_step.
Qed.

Lemma quiet_run_ctl {A : Type} (p : Prog A) (sched : list (list nat))
    (s : Sys) :
  no_mark_down p → quiet s → quiet (run_ctl sched s p).1.
Proof.
  revert sched s. induction p as [a|e|X e k IH]; intros sched s Hp Hq; simpl;
    try by apply quiet_bg_steps.
  destruct Hp as [He Hk].
  destruct (quiet_bg_steps (hd [] sched) s Hq) as (Hs & Hw & Hth).
  pose proof (handle_keeps_set e _ Hs) as Hs'.
  pose proof (handle_keeps_empty e _ He Hw) as Hw'.
  destruct (handle _ e) as [w' x]. by apply IH.
Qed.

Lemma exec_keeps_empty {A : Type} (p : Prog A) (w : World) :
  no_mark_down p → held w = ∅ → held (exec w p).1 = ∅.
Proof.
  revert w. induction p as [a|e|X e k IH]; intros w Hp Hw; simpl; [done..|].
  destruct Hp as [He Hk]. pose proof (handle_keeps_empty e w He Hw) as Hw'.
  destruct (handle w e) as [w' x]. by apply IH.
Qed.

Lemma stop_sys_cons (t0 : list nat) (sched : list (list nat)) (s : Sys) :
  stop_sys (t0 :: sched) s =
  run_ctl sched
    (set_world (set_stop_event true (world (bg_steps t0 s))) (bg_steps t0 s))
    (release_all;; notice).
Proof. done. Qed.

Lemma stop_sys_snapshot (t0 t1 : list nat) (sched : list (list nat))
    (s : Sys) :
  let s1 := at_snapshot t0 t1 s in
  let tokens := elements (held (world s1)) in
  stop_sys (t0 :: t1 :: sched) s =
  run_ctl sched
    (set_world (log (ReleaseAll tokens) (set_held ∅ (world s1))) s1)
    (for_each tokens (fun t => try_except (release_token t) (fun _ => Ret tt));;
     notice).
Proof. done. Qed.

Lemma no_mark_down_sweep (tokens : list string) :
  no_mark_down
    (for_each tokens (fun t => try_except (release_token t) (fun _ => Ret tt));;
     notice).
Proof.
  apply no_mark_down_bind; [|by intros []].
  apply (proj2 no_mark_down_release_all).
Qed.

End Quiet.

(** C2, as the code has it.  [stop] first sets the signal and then runs
    [release_all], under every interleaving, and whatever the threads do
    during the call it returns normally with the signal set.  When no thread
    acts after the snapshot of the sweep was taken, the held set is empty
    once [stop] returns, whatever the state and whatever the threads did
    before the snapshot.  Under every schedule the same holds in a state
    reached from construction unless, at the snapshot, a thread is inside a
    step that can still mark a token down; a step that is yet to start
    cannot, since it finds the signal set.  When the runner is idle,
    whatever is scheduled during the call changes nothing: the held set was
    empty and stays empty, and no backend call is made. *)
Theorem stop_sets_signal_and_sweeps `{Platform} (s : Sys) :
  let w := world s in
  let tokens := elements (held w) in
  (∀ t0 sched,
     stop_sys (t0 :: sched) s =
     run_ctl sched
       (set_world (set_stop_event true (world (bg_steps t0 s)))
          (bg_steps t0 s))
       (release_all;; notice))
  ∧ stop_sys [] s =
    (set_world
       (extend (ReleaseAll tokens :: (Backend <$> omap release_call tokens))
          (set_held ∅ (set_stop_event true w))) s, Ok tt)
  ∧ (∀ sched, (stop_sys sched s).2 = Ok tt
              ∧ stop_event (world (stop_sys sched s).1) = true)
  ∧ (∀ t0 t1 sched,
       let s1 := at_snapshot t0 t1 s in
       let held1 := elements (held (world s1)) in
       stop_event (world s1) = true
       ∧ stop_sys (t0 :: t1 :: sched) s =
         run_ctl sched
           (set_world (log (ReleaseAll held1) (set_held ∅ (world s1))) s1)
           (for_each held1
              (fun t => try_except (release_token t) (fun _ => Ret tt));;
            notice))
  ∧ (∀ t0 t1, held (world (stop_sys [t0; t1] s).1) = ∅)
  ∧ (∀ step, settled (do_step step))
  ∧ (reachable s →
     ∀ t0 t1 sched,
       (∀ i p rest, threads (at_snapshot t0 t1 s) !! i = Some (PcStep p rest) →
                    settled p) →
       held (world (stop_sys (t0 :: t1 :: sched) s).1) = ∅)
  ∧ (reachable s → is_running s = false →
     held w = ∅
     ∧ ∀ sched, stop_sys sched s =
         (set_world (extend [ReleaseAll []] (set_stop_event true w)) s, Ok tt)).
Proof.
  intros w tokens. split; [intros t0 sched; apply stop_sys_cons|].
  split; [unfold stop_sys; by rewrite run_ctl_nil, exec_stop|].
  split; [intros sched; apply stop_sys_any_schedule|].
  assert (∀ t0 t1, stop_event (world (at_snapshot t0 t1 s)) = true) as Hset.
  { intros t0 t1. unfold at_snapshot. by apply bg_steps_keeps_set. }
  split; [intros t0 t1 sched; split; [apply Hset|apply stop_sys_snapshot]|].
  split.
  { intros t0 t1. rewrite stop_sys_snapshot, run_ctl_nil. simpl.
    by apply exec_keeps_empty; [apply no_mark_down_sweep|]. }
  split; [apply settled_do_step|]. split.
  - intros Hreach t0 t1 sched Hsteps. rewrite stop_sys_snapshot.
    apply quiet_run_ctl; [apply no_mark_down_sweep|].
    split; [apply Hset|]. split; [done|]. simpl. intros i pc Hi.
    destruct pc as [| |p rest|p exn|]; try done; simpl.
    + by eapply Hsteps.
    + apply no_mark_down_settled.
      assert (sys_inv (at_snapshot t0 t1 s)) as (_ & Hfin & _).
      { unfold at_snapshot. apply sys_inv_bg_steps.
        apply (sys_inv_handle ESet); [done|].
        by apply sys_inv_bg_steps, sys_inv_reachable. }
      by eapply Hfin.
  - intros Hreach Hrun. apply sys_inv_reachable in Hreach as Hinv.
    pose proof (idle_held_empty s Hinv Hrun) as Hempty. split; [done|].
    intros sched. unfold stop_sys.
    rewrite run_ctl_idle, exec_stop by (done || apply Hinv).
    subst w. rewrite Hempty, elements_empty. simpl.
    do 3 f_equal. destruct (world s); unfold set_held, set_stop_event;
      simpl in *. by subst.
Qed.

Lemma stop_sets_signal_and_sweeps_witness :
  let P := pynput_platform always_ok in
  let s := @run_events P (fresh_sys [with_action "press" (key_step "a")])
             [EvStart; EvBg 0; EvBg 0; EvBg 0; EvBg 0] in
  let sched := [[]; []; [0%nat]; [0%nat]; [0%nat]] in
  @reachable P s
  ∧ is_running s = true
  ∧ elements (held (world s)) = ["key:a"]
  ∧ (@stop_sys P sched s).2 = Ok tt
  ∧ stop_event (world (@stop_sys P sched s).1) = true
  ∧ held (world (@stop_sys P sched s).1) = ∅.
Proof.
  intros P s sched.
  assert (@reachable P s) as Hreach.
  { exists (hotkey_config [with_action "press" (key_step "a")]),
      (fresh_sys [with_action "press" (key_step "a")]).
    eexists. split; [vm_compute; reflexivity|reflexivity]. }
  assert (threads (@at_snapshot P [] [] s) = [PcStep (Ret tt) []]) as Hth
    by (vm_compute; reflexivity).
  destruct (@stop_sets_signal_and_sweeps P s)
    as (_ & _ & Hret & _ & _ & _ & Hheld & _).
  split; [exact Hreach|]. split; [vm_compute; reflexivity|].
  split; [vm_compute; reflexivity|].
  split; [exact (proj1 (Hret sched))|]. split; [exact (proj2 (Hret sched))|].
  apply (Hheld Hreach [] [] [[0%nat]; [0%nat]; [0%nat]]).
  intros i p rest Hi. rewrite Hth in Hi.
  destruct i as [|i]; [|destruct i; discriminate Hi].
  injection Hi as <- _. exact I.
Defined.

(** C2 as stated fails while running: the thread has issued the press of
    ["a"], [stop] sets the signal and sweeps an empty set, the thread then
    marks ["key:a"] down, and [stop] returns with the token in the set. *)
Lemma stop_race_leaves_token :
  ¬ (∀ (P : Platform) (s : Sys) (sched : list (list nat)),
       @reachable P s → held (world (@stop_sys P sched s).1) = ∅).
Proof.
  intros Hempty.
  specialize (Hempty (pynput_platform always_ok)
    (@run_events (pynput_platform always_ok)
       (fresh_sys [with_action "press" (key_step "a")])
       [EvStart; EvBg 0; EvBg 0; EvBg 0])
    [[]; []; [0%nat]]).
  assert (elements (held (world (@stop_sys (pynput_platform always_ok)
            [[]; []; [0%nat]]
            (@run_events (pynput_platform always_ok)
               (fresh_sys [with_action "press" (key_step "a")])
               [EvStart; EvBg 0; EvBg 0; EvBg 0])).1)) = ["key:a"]) as Hheld
    by (vm_compute; reflexivity).
  rewrite Hempty in Hheld; [discriminate Hheld|].
  exists (hotkey_config [with_action "press" (key_step "a")]),
    (fresh_sys [with_action "press" (key_step "a")]).
  eexists. split; [vm_compute; reflexivity|reflexivity].
Qed.

(** * Further properties *)

(** ** Steps *)

Section MoreSteps.
Context `{Platform}.

(** Resolve the string comparisons whose outcome is known. *)
Ltac settle_decide :=
  repeat (first [ rewrite decide_True by done | rewrite decide_False by done ]).

(** Enter [do_step] for a step whose type is known, with the signal clear. *)
Ltac enter_do_step Ht Hs :=
  unfold do_step; rewrite Ht;
  rewrite (decide_False (P := _ = Some "wait")) by done;
  rewrite exec_bind; cbn [exec is_set handle]; rewrite Hs;
  settle_decide.

Lemma exec_no_hold_op {A : Type} (p : Prog A) (w : World) :
  no_hold_op p → held (exec w p).1 = held w.
Proof.
  revert w. induction p as [a|e|X e k IH]; intros w Hp; simpl; [done..|].
  destruct Hp as [He Hk].
  destruct (handle w e) as [w' x] eqn:Hh. rewrite IH by done.
  destruct e; simpl in Hh; simplify_eq; done.
Qed.

Lemma exec_no_set {A : Type} (p : Prog A) (w : World) :
  no_set p → stop_event (exec w p).1 = stop_event w.
Proof.
  revert w. induction p as [a|e|X e k IH]; intros w Hp; simpl; [done..|].
  destruct Hp as [He Hk].
  destruct (handle w e) as [w' x] eqn:Hh. rewrite IH by done.
  destruct e; simpl in Hh; simplify_eq; done.
Qed.

Lemma exec_trace_prefix {A : Type} (p : Prog A) (w : World) :
  trace w `prefix_of` trace (exec w p).1.
Proof.
  revert w. induction p as [a|e|X e k IH]; intros w; simpl; [done..|].
  destruct (handle w e) as [w' x] eqn:Hh. etrans; [|apply IH].
  destruct e; simpl in Hh; simplify_eq; simpl;
    first [done | by apply prefix_app_r].
Qed.

Lemma no_set_bind {A B : Type} (p : Prog A) (f : A → Prog B) :
  no_set p → (∀ a, no_set (f a)) → no_set (p ≫= f).
Proof.
  intros Hp Hf. induction p as [a|e|X e k IH]; simpl in *; [done..|].
  destruct Hp as [He Hk]. split; [done|]. intros x. by apply IH.
Qed.

Lemma no_set_call (c : Call) : no_set (call c).
Proof. split; [done|]. by intros []. Qed.

Lemma no_set_calls {X : Type} (f : X → Call) (l : list X) :
  no_set (for_each l (fun x => call (f x))).
Proof.
  induction l as [|x l IH]; [done|]. cbn [for_each].
  apply no_set_bind; [apply no_set_call|done].
Qed.

Lemma no_set_lift {A : Type} (r : Res A) : no_set (lift r).
Proof. by destruct r. Qed.

(** Leaves of [do_step] for [no_set]. *)
Ltac no_set_leaf :=
  first
    [ done
    | by split
    | by destruct (step_key _)
    | apply no_set_call
    | apply no_set_calls
    | apply no_set_lift
    | apply no_set_bind; [ no_set_leaf | intros ?; no_set_leaf ] ].

Lemma no_set_do_step (step : Step) : no_set (do_step step).
Proof.
  unfold do_step. case_decide; [by split|].
  apply no_set_bind; [by split|]. intros [|]; [done|].
  destruct USE_PDI; repeat case_decide; no_set_leaf.
Qed.

(** Leaves of [do_step] for [no_hold_op]. *)
Ltac no_hold_leaf :=
  first
    [ done
    | by split
    | apply no_hold_op_getitem
    | apply no_hold_op_call
    | apply no_hold_op_calls
    | apply no_hold_op_lift
    | apply no_hold_op_bind; [ no_hold_leaf | intros ?; no_hold_leaf ] ].

Lemma no_hold_op_other_steps (step : Step) :
  ¬ hold_step step → no_hold_op (do_step step).
Proof.
  intros Hnot. unfold do_step. case_decide; [by split|].
  apply no_hold_op_bind; [apply no_hold_op_is_set|]. intros [|]; [done|].
  destruct USE_PDI; repeat case_decide; try no_hold_leaf;
    exfalso; apply Hnot; split; eauto.
Qed.

Lemma exec_release_step (step : Step) (w : World) :
  stop_event w = false →
  step_action step = Some "release" →
  step_type step = Some "key" ∨ step_type step = Some "mouse_button" →
  exec w (do_step step) =
  match release_step_call step with
  | Err e => (w, Err e)
  | Ok (c, token) =>
      if backend_ok (trace w) c
      then (extend [Backend c; MarkUp token] (set_held (held w ∖ {[token]}) w),
            Ok tt)
      else (extend [Backend c] w, Err (BackendError c))
  end.
Proof.
  assert (∀ c t,
    log (MarkUp t) (set_held (held (log (Backend c) w) ∖ {[t]})
                      (log (Backend c) w))
    = extend [Backend c; MarkUp t] (set_held (held w ∖ {[t]}) w)) as Hlog.
  { intros c t. unfold log, extend, set_held; simpl. by rewrite <- app_assoc. }
  intros Hs Ha [Ht|Ht]; unfold release_step_call; enter_do_step Ht Hs.
  - destruct (step_key step) as [raw|]; [|done].
    cbn [getitem]. rewrite Ha. cbn [from_option id mbind Prog_bind bind].
    destruct USE_PDI.
    + settle_decide. by rewrite exec_call_then_mark, exec_mark_up, Hlog.
    + rewrite exec_bind, exec_lift.
      destruct (parse_key_pynput raw) as [key|e]; [|done].
      settle_decide. by rewrite exec_call_then_mark, exec_mark_up, Hlog.
  - rewrite Ha. cbn [from_option id]. destruct USE_PDI.
    + rewrite exec_bind, exec_lift.
      destruct (to_pdi_button _) as [b|e]; [|done].
      settle_decide. by rewrite exec_call_then_mark, exec_mark_up, Hlog.
    + settle_decide. by rewrite exec_call_then_mark, exec_mark_up, Hlog.
Qed.

End MoreSteps.

(** X1. [do_step] never changes the signal and only adds to the trace; a
    step that is not a press or release of a [key] or [mouse_button] step
    performs no hold operation and leaves the held set as it was. *)
Theorem do_step_frame `{Platform} (step : Step) (w : World) :
  let w' := (exec w (do_step step)).1 in
  stop_event w' = stop_event w
  ∧ trace w `prefix_of` trace w'
  ∧ (¬ hold_step step → no_hold_op (do_step step) ∧ held w' = held w).
Proof.
  split; [apply exec_no_set, no_set_do_step|].
  split; [apply exec_trace_prefix|]. intros Hnot.
  pose proof (no_hold_op_other_steps step Hnot) as Hno.
  split; [done|]. by apply exec_no_hold_op.
Qed.

Lemma do_step_frame_witness :
  let P := pdi_platform always_ok in
  let step := combo_step ["Key.ctrl"; "c"] in
  let w := idle_world {["mouse:left"]} in
  ¬ hold_step step
  ∧ stop_event (@exec P _ w (@do_step P step)).1 = stop_event w
  ∧ held (@exec P _ w (@do_step P step)).1 = held w.
Proof.
  intros P step w.
  assert (¬ hold_step step) as Hnot by (by intros [[?|?] _]).
  destruct (@do_step_frame P step w) as (H1 & _ & H3).
  exact (conj Hnot (conj H1 (proj2 (H3 Hnot)))).
Defined.

(** X2. With the signal clear, a step whose ["type"] is missing or is none
    of the eight known types raises the unknown-type [ValueError] and
    changes nothing: no backend call, no hold operation. *)
Theorem unknown_step_type_rejected `{Platform} (step : Step) (w : World) :
  stop_event w = false →
  (∀ t, step_type step = Some t → t ∉ known_types) →
  exec w (do_step step)
  = (w, Err (ValueError (UnknownStepType (step_type step)))).
Proof.
  intros Hs Hun.
  assert (∀ t, t ∈ known_types → step_type step ≠ Some t) as Hne.
  { intros t Ht Heq. by apply (Hun t). }
  unfold do_step.
  rewrite (decide_False (P := _ = Some "wait"))
    by (apply Hne; repeat constructor).
  rewrite exec_bind. cbn [exec is_set handle]. rewrite Hs.
  repeat (rewrite decide_False by (apply Hne; repeat constructor)).
  done.
Qed.

Lemma unknown_step_type_rejected_witness :
  let P := pynput_platform always_ok in
  let step := empty_step "Key" in
  let w := idle_world ∅ in
  stop_event w = false
  ∧ (∀ t, step_type step = Some t → t ∉ known_types)
  ∧ @exec P _ w (@do_step P step)
    = (w, Err (ValueError (UnknownStepType (step_type step)))).
Proof.
  intros P step w.
  assert (∀ t, step_type step = Some t → t ∉ known_types) as Hun.
  { intros t [= <-]. unfold known_types. rewrite !elem_of_cons.
    intros Hin. repeat (destruct Hin as [Hin|Hin]; [discriminate Hin|]).
    by apply elem_of_nil in Hin. }
  exact (conj eq_refl (conj Hun
           (@unknown_step_type_rejected P step w eq_refl Hun))).
Defined.

(** X3. With the signal clear, a [key] step without a ["key"] entry raises
    [KeyError] before anything else, whatever its action (valid or not) and
    on either backend; nothing is changed. *)
Theorem key_step_without_key `{Platform} (step : Step) (w : World) :
  stop_event w = false →
  step_type step = Some "key" →
  step_key step = None →
  exec w (do_step step) = (w, Err (KeyError "key")).
Proof.
  intros Hs Ht Hk. unfold do_step. rewrite Ht.
  rewrite (decide_False (P := _ = Some "wait")) by done.
  rewrite exec_bind. cbn [exec is_set handle]. rewrite Hs.
  rewrite decide_False by done. rewrite decide_True by done.
  by rewrite Hk.
Qed.

Lemma key_step_without_key_witness :
  let P := pdi_platform always_ok in
  let step := with_action "hold" (empty_step "key") in
  let w := idle_world ∅ in
  stop_event w = false
  ∧ step_type step = Some "key"
  ∧ step_key step = None
  ∧ @exec P _ w (@do_step P step) = (w, Err (KeyError "key")).
Proof.
  intros P step w.
  exact (conj eq_refl (conj eq_refl (conj eq_refl
           (@key_step_without_key P step w eq_refl eq_refl eq_refl)))).
Defined.

(** X4. A [key] or [mouse_button] step with [action = "release"], run with
    the signal clear, issues the backend release and then marks the token
    up, whether or not the token was held (a token that was not held leaves
    the set as it was); when the release raises, the step ends with that
    error and the held set is the one before. *)
Theorem release_marks_up_only_after_success `{Platform} (step : Step)
    (w : World) :
  stop_event w = false →
  step_action step = Some "release" →
  step_type step = Some "key" ∨ step_type step = Some "mouse_button" →
  let '(w', r) := exec w (do_step step) in
  match release_step_call step with
  | Err e => w' = w ∧ r = Err e
  | Ok (c, token) =>
      if backend_ok (trace w) c
      then r = Ok tt
           ∧ trace w' = trace w ++ [Backend c; MarkUp token]
           ∧ held w' = held w ∖ {[token]}
           ∧ (token ∉ held w → held w' = held w)
      else r = Err (BackendError c)
           ∧ trace w' = trace w ++ [Backend c]
           ∧ held w' = held w
  end.
Proof.
  intros Hs Ha Ht. rewrite (exec_release_step step w Hs Ha Ht).
  destruct (release_step_call step) as [[c token]|e]; [|done].
  destruct (backend_ok (trace w) c); [|done].
  repeat split. simpl. intros Hnot.
  apply difference_disjoint_L. by apply disjoint_singleton_r.
Qed.

Lemma release_marks_up_only_after_success_witness :
  let P := pynput_platform always_ok in
  let step := with_action "release" (key_step "a") in
  let w := idle_world {["key:b"]} in
  let '(w', r) := @exec P _ w (@do_step P step) in
  r = Ok tt
  ∧ trace w' = trace w ++ [Backend (K_release (KeyCode_from_char "a"));
                           MarkUp "key:a"]
  ∧ held w' = held w ∖ {["key:a"]}
  ∧ ("key:a" ∉ held w → held w' = held w).
Proof.
  apply (@release_marks_up_only_after_success (pynput_platform always_ok)
           (with_action "release" (key_step "a")) (idle_world {["key:b"]}));
    [done|done|by left].
Defined.

Section PressRelease.
Context `{Platform}.

Lemma press_release_calls (step : Step) (c : Call) (token : string) :
  step_type step = Some "key" ∨ step_type step = Some "mouse_button" →
  press_call step = Ok (c, token) →
  ∃ c', release_of c = Some c'
        ∧ release_step_call step = Ok (c', token)
        ∧ release_call token = Some c'.
Proof.
  unfold press_call, release_step_call, release_call.
  intros [Ht|Ht]; rewrite Ht.
  - rewrite !decide_True by done.
    destruct (step_key step) as [raw|]; [|done].
    change (PyStr.split_once ":"%char (key_token raw)) with (Some ("key", raw)).
    destruct USE_PDI.
    + intros [= <- <-]. eexists. split; [done|]. split; [done|].
      change (PyStr.split_once ":"%char (key_token raw))
        with (Some ("key", raw)).
      cbv beta iota. by rewrite decide_True by done.
    + destruct (parse_key_pynput raw) as [key|e] eqn:Hkey; [|done].
      intros [= <- <-]. eexists. split; [done|]. split; [done|].
      change (PyStr.split_once ":"%char (key_token raw))
        with (Some ("key", raw)).
      cbv beta iota. rewrite decide_True by done. by rewrite Hkey.
  - rewrite !decide_False by done. cbv zeta.
    destruct USE_PDI.
    + destruct (to_pdi_button _) as [b|e] eqn:Hb; [|done].
      intros [= <- <-]. eexists. split; [done|]. split; [done|].
      change (PyStr.split_once ":"%char
                (mouse_token (default "left" (step_button step))))
        with (Some ("mouse", default "left" (step_button step))).
      cbv beta iota. rewrite decide_False by done.
      rewrite decide_True by done. by rewrite Hb.
    + intros [= <- <-]. eexists. split; [done|]. split; [done|].
      change (PyStr.split_once ":"%char
                (mouse_token (default "left" (step_button step))))
        with (Some ("mouse", default "left" (step_button step))).
      cbv beta iota. rewrite decide_False by done.
      by rewrite decide_True by done.
Qed.

Lemma fmap_seq_const {X : Type} (x : X) (j n : nat) :
  (fun _ => x) <$> seq j n = replicate n x.
Proof. revert j. induction n as [|n IH]; intros j; simpl; [done|]. by f_equal. Qed.

End PressRelease.

(** X5. A press step followed by the release step of the same key or button
    (same entries, action apart), both accepted by the backend: the release
    call is the one that undoes the press call, the trace gains press,
    mark-down, release, mark-up in this order, and the token is not held
    afterwards; the held set is back to what it was when the token was not
    held before. *)
Theorem press_then_release_round_trip `{Platform} (step : Step) (w : World)
    (c : Call) (token : string) :
  stop_event w = false →
  step_type step = Some "key" ∨ step_type step = Some "mouse_button" →
  press_call step = Ok (c, token) →
  ∃ c', release_of c = Some c'
    ∧ (backend_ok (trace w) c = true →
       backend_ok (trace w ++ [Backend c; MarkDown token]) c' = true →
       let w1 := (exec w (do_step (with_action "press" step))).1 in
       let '(w2, r) := exec w1 (do_step (with_action "release" step)) in
       r = Ok tt
       ∧ trace w2 = trace w ++ [Backend c; MarkDown token;
                                Backend c'; MarkUp token]
       ∧ held w2 = held w ∖ {[token]}
       ∧ (token ∉ held w → held w2 = held w)).
Proof.
  intros Hs Ht Hpress.
  destruct (press_release_calls step c token Ht Hpress) as (c' & Hc' & Hrel & _).
  exists c'. split; [done|]. intros Hok Hok'.
  rewrite (exec_press_step (with_action "press" step) w Hs eq_refl Ht).
  change (press_call (with_action "press" step)) with (press_call step).
  rewrite Hpress, Hok. cbn [fst].
  set (w1 := extend [Backend c; MarkDown token]
               (set_held (held w ∪ {[token]}) w)).
  assert (stop_event w1 = false) as Hs1 by exact Hs.
  rewrite (exec_release_step (with_action "release" step) w1 Hs1 eq_refl Ht).
  change (release_step_call (with_action "release" step))
    with (release_step_call step).
  rewrite Hrel. subst w1. simpl. rewrite Hok'. simpl.
  split; [done|]. split; [by rewrite <- app_assoc|].
  assert ((held w ∪ {[token]}) ∖ {[token]} = held w ∖ {[token]}) as Heq.
  { apply set_eq. intros x.
    rewrite !elem_of_difference, elem_of_union. tauto. }
  split; [done|]. intros Hnot. rewrite Heq.
  apply difference_disjoint_L. by apply disjoint_singleton_r.
Qed.

Lemma press_then_release_round_trip_witness :
  let P := pynput_platform always_ok in
  let step := key_step " a" in
  let w := idle_world ∅ in
  let c := K_press (KeyCode_from_char "a") in
  stop_event w = false
  ∧ @press_call P step = Ok (c, "key: a")
  ∧ ∃ c', release_of c = Some c'
      ∧ let w1 := (@exec P _ w (@do_step P (with_action "press" step))).1 in
        let '(w2, r) := @exec P _ w1 (@do_step P (with_action "release" step)) in
        r = Ok tt
        ∧ trace w2 = trace w ++ [Backend c; MarkDown "key: a";
                                 Backend c'; MarkUp "key: a"]
        ∧ held w2 = held w ∖ {["key: a"]}.
Proof.
  intros P step w c.
  assert (@press_call P step = Ok (c, "key: a")) as Hpress
    by (vm_compute; reflexivity).
  split; [done|]. split; [exact Hpress|].
  destruct (@press_then_release_round_trip P step w c "key: a" eq_refl
              (or_introl eq_refl) Hpress) as (c' & Hc' & Hrun).
  exists c'. split; [exact Hc'|].
  specialize (Hrun eq_refl eq_refl). cbv zeta in Hrun. cbv zeta.
  destruct (@exec P _ _ (@do_step P (with_action "release" step))) as [w2 r].
  destruct Hrun as (H1 & H2 & H3 & _). exact (conj H1 (conj H2 H3)).
Defined.

(** X6. The sweep undoes the press: after an accepted press step on an empty
    held set, [release_all] attempts exactly one call, the release of the
    key or button that the step pressed, and leaves the set empty. *)
Theorem sweep_releases_what_was_pressed `{Platform} (step : Step) (w : World)
    (c : Call) (token : string) :
  stop_event w = false →
  held w = ∅ →
  step_action step = Some "press" →
  step_type step = Some "key" ∨ step_type step = Some "mouse_button" →
  press_call step = Ok (c, token) →
  backend_ok (trace w) c = true →
  ∃ c', release_of c = Some c'
    ∧ let w1 := (exec w (do_step step)).1 in
      held w1 = {[token]}
      ∧ (exec w1 release_all).2 = Ok tt
      ∧ held (exec w1 release_all).1 = ∅
      ∧ trace (exec w1 release_all).1 =
        trace w ++ [Backend c; MarkDown token; ReleaseAll [token]; Backend c'].
Proof.
  intros Hs Hempty Ha Ht Hpress Hok.
  destruct (press_release_calls step c token Ht Hpress) as (c' & Hc' & _ & Hrel).
  exists c'. split; [done|].
  rewrite (exec_press_step step w Hs Ha Ht), Hpress, Hok. cbn [fst].
  rewrite exec_release_all. simpl.
  rewrite Hempty, (left_id_L ∅ (∪)), elements_singleton. simpl.
  rewrite Hrel. simpl. by rewrite <- app_assoc.
Qed.

Lemma sweep_releases_what_was_pressed_witness :
  let P := pdi_platform always_ok in
  let step :=
    with_action "press" (with_action "x" (empty_step "mouse_button")) in
  let w := idle_world ∅ in
  @press_call P step = Ok (PDI_mouseDown "left", "mouse:left")
  ∧ ∃ c', release_of (PDI_mouseDown "left") = Some c'
      ∧ trace (@exec P _ (@exec P _ w (@do_step P step)).1 (@release_all P)).1 =
        trace w ++ [Backend (PDI_mouseDown "left"); MarkDown "mouse:left";
                    ReleaseAll ["mouse:left"]; Backend c'].
Proof.
  intros P step w.
  assert (@press_call P step = Ok (PDI_mouseDown "left", "mouse:left"))
    as Hpress by (vm_compute; reflexivity).
  split; [exact Hpress|].
  destruct (@sweep_releases_what_was_pressed P step w _ _ eq_refl eq_refl
              eq_refl (or_intror eq_refl) Hpress eq_refl)
    as (c' & Hc' & _ & _ & _ & Htr).
  exists c'. exact (conj Hc' Htr).
Defined.

(** X7. A [mouse_click] step clicks [max(1, count)] times: with a count
    below one, or none, it still clicks once.  pydirectinput gets one click
    call carrying that number; pynput gets that many click calls, up to the
    first that raises. *)
Theorem mouse_click_count `{Platform} (step : Step) (w : World) :
  stop_event w = false →
  step_type step = Some "mouse_click" →
  let button := default "left" (step_button step) in
  let n := Z.max 1 (default 1 (step_count step)) in
  (1 ≤ n)
  ∧ (default 1 (step_count step) ≤ 1 → n = 1)
  ∧ if USE_PDI then
      match to_pdi_button button with
      | Err e => exec w (do_step step) = (w, Err e)
      | Ok b => exec w (do_step step) = exec w (call (PDI_click b n))
      end
    else
      let clicks := replicate (Z.to_nat n) (M_click (pynput_button button)) in
      exec w (do_step step) =
      (extend (Backend <$> attempted (trace w) clicks) w,
       calls_result (trace w) clicks)
      ∧ (accepted (trace w) clicks = true →
         calls_of (trace (exec w (do_step step)).1)
         = calls_of (trace w) ++ clicks).
Proof.
  intros Hs Ht button n. split; [lia|]. split; [lia|].
  unfold do_step. rewrite Ht.
  rewrite (decide_False (P := _ = Some "wait")) by done.
  rewrite exec_bind. cbn [exec is_set handle]. rewrite Hs.
  repeat (first [ rewrite decide_True by done | rewrite decide_False by done ]).
  fold button. fold n. destruct USE_PDI.
  - rewrite exec_bind, exec_lift. by destruct (to_pdi_button button).
  - rewrite exec_calls, fmap_seq_const. split; [done|].
    intros Hacc. destruct (attempted_accepted _ _ Hacc) as [-> _]. simpl.
    by rewrite calls_of_app, calls_of_Backend.
Qed.

Lemma mouse_click_count_witness :
  let P := pynput_platform always_ok in
  let w := idle_world ∅ in
  stop_event w = false
  ∧ calls_of (trace (@exec P _ w (@do_step P (click_step (-3)))).1)
    = calls_of (trace w) ++ [M_click Button_left]
  ∧ calls_of (trace (@exec P _ w (@do_step P (click_step 2))).1)
    = calls_of (trace w) ++ [M_click Button_left; M_click Button_left].
Proof.
  intros P w. split; [done|]. split.
  - apply (@mouse_click_count P (click_step (-3)) w eq_refl eq_refl).
    reflexivity.
  - apply (@mouse_click_count P (click_step 2) w eq_refl eq_refl).
    reflexivity.
Defined.

(** X8. A [mouse_scroll] step on pydirectinput scrolls vertically only: it
    issues [PDI.scroll(dy)] when [dy] is not zero and nothing at all when it
    is, whatever [dx]; on pynput it issues [M.scroll(dx, dy)] in every case.
    Missing entries count as zero. *)
Theorem mouse_scroll_vertical_only `{Platform} (step : Step) (w : World) :
  stop_event w = false →
  step_type step = Some "mouse_scroll" →
  let dx := default 0 (step_dx step) in
  let dy := default 0 (step_dy step) in
  if USE_PDI then
    if decide (dy = 0) then exec w (do_step step) = (w, Ok tt)
    else exec w (do_step step) = exec w (call (PDI_scroll dy))
  else exec w (do_step step) = exec w (call (M_scroll dx dy)).
Proof.
  intros Hs Ht dx dy. unfold do_step. rewrite Ht.
  rewrite (decide_False (P := _ = Some "wait")) by done.
  rewrite exec_bind. cbn [exec is_set handle]. rewrite Hs.
  fold dx. fold dy.
  destruct USE_PDI; repeat case_decide; simplify_eq; try done;
    contradiction.
Qed.

Lemma mouse_scroll_vertical_only_witness :
  let P := pdi_platform always_ok in
  let w := idle_world ∅ in
  stop_event w = false
  ∧ @exec P _ w (@do_step P (scroll_step 5 0)) = (w, Ok tt)
  ∧ @exec P _ w (@do_step P (scroll_step 5 (-2)))
    = @exec P _ w (call (PDI_scroll (-2))).
Proof.
  intros P w. split; [done|]. split.
  - exact (@mouse_scroll_vertical_only P (scroll_step 5 0) w eq_refl eq_refl).
  - exact (@mouse_scroll_vertical_only P (scroll_step 5 (-2)) w eq_refl eq_refl).
Defined.

(** ** The run of a thread *)

Section MoreRuns.
Context `{Platform}.

Lemma thread_run_trans (t : MacroTool) (n m : nat) (c c' c'' : World * Pc) :
  thread_run t n c = c' → thread_run t m c' = c'' →
  thread_run t (m + n) c = c''.
Proof. intros Hn Hm. by rewrite thread_run_add, Hn. Qed.

Lemma thread_run_finally (t : MacroTool) (w : World) (exn : option Exn) :
  ∃ n, thread_run t n (w, PcFinally release_all exn)
       = ((exec w release_all).1, PcExited exn).
Proof.
  destruct (thread_run_in_finally t release_all exn w
              (exec w release_all).1 (Ok tt)) as [n Hn].
  { by rewrite exec_release_all. }
  exists (1 + n)%nat. by eapply thread_run_trans.
Qed.

Lemma thread_run_pass (t : MacroTool) (steps : list Step) (w w1 : World)
    (r : Res unit) :
  for_steps w steps = (w1, r) →
  ∃ n, (0 < n)%nat
       ∧ thread_run t n (w, PcFor steps)
         = (w1, match r with
                | Ok _ => _run_break t
                | Err e => PcFinally release_all (Some e)
                end).
Proof.
  revert w. induction steps as [|step rest IH]; intros w Hfor; simpl in Hfor.
  - exists 1%nat. split; [lia|]. by simplify_eq.
  - destruct (stop_event w) eqn:Hs.
    + exists 1%nat. split; [lia|]. simplify_eq.
      unfold thread_run. simpl. by rewrite Hs.
    + destruct (exec w (do_step step)) as [w' r'] eqn:Hex.
      destruct (thread_run_in_step t (do_step step) rest w w' r' Hex)
        as [n1 Hn1].
      assert (thread_run t 1 (w, PcFor (step :: rest))
              = (w, PcStep (do_step step) rest)) as H1.
      { unfold thread_run. simpl. by rewrite Hs. }
      destruct r' as [[]|e].
      * destruct (IH _ Hfor) as (n2 & _ & Hn2).
        exists (n2 + (1 + (n1 + 1)))%nat. split; [lia|].
        eapply thread_run_trans; [|exact Hn2].
        eapply thread_run_trans;
          [eapply thread_run_trans; [exact H1|exact Hn1]|reflexivity].
      * simplify_eq. exists (1 + (n1 + 1))%nat. split; [lia|].
        eapply thread_run_trans;
          [eapply thread_run_trans; [exact H1|exact Hn1]|reflexivity].
Qed.

Lemma for_steps_clear (steps : list Step) (w : World) :
  stop_event w = false →
  for_steps w steps = exec w (for_each steps do_step).
Proof.
  revert w. induction steps as [|step rest IH]; intros w Hs; [done|].
  cbn [for_steps for_each]. rewrite Hs, exec_bind.
  pose proof (exec_no_set (do_step step) w (no_set_do_step step)) as Hkeep.
  destruct (exec w (do_step step)) as [w' [[]|e]]; [|done].
  apply IH. simpl in Hkeep. congruence.
Qed.

Lemma no_set_steps (steps : list Step) : no_set (for_each steps do_step).
Proof.
  induction steps as [|step rest IH]; [exact I|]. cbn [for_each].
  apply no_set_bind; [apply no_set_do_step|done].
Qed.

Lemma thread_run_cancelled_for (t : MacroTool) (rest : list Step) (w : World) :
  stop_event w = true →
  ∃ n, thread_run t n (w, PcFor rest)
       = ((exec w release_all).1, PcExited None).
Proof.
  intros Hs.
  destruct (thread_run_finally t w None) as [n Hn].
  assert (thread_run t 1 (w, PcWhile) = (w, PcFinally release_all None))
    as Hwhile.
  { unfold thread_run. simpl. by rewrite Hs. }
  assert (thread_run t 1 (w, PcFor rest) = (w, _run_break t)) as Hfor.
  { unfold thread_run. simpl. destruct rest; [done|]. by rewrite Hs. }
  unfold _run_break in Hfor. destruct (loop t).
  - exists (n + (1 + 1))%nat.
    eapply thread_run_trans; [|exact Hn].
    eapply thread_run_trans; [exact Hfor|exact Hwhile].
  - exists (n + 1)%nat. eapply thread_run_trans; [exact Hfor|exact Hn].
Qed.

Lemma thread_run_cancelled_while (t : MacroTool) (w : World) :
  stop_event w = true →
  ∃ n, thread_run t n (w, PcWhile)
       = ((exec w release_all).1, PcExited None).
Proof.
  intros Hs. destruct (thread_run_finally t w None) as [n Hn].
  exists (n + 1)%nat. eapply thread_run_trans; [|exact Hn].
  unfold thread_run. simpl. by rewrite Hs.
Qed.

Lemma thread_run_spin (t : MacroTool) (w : World) (n : nat) :
  loop t = true → macro t = [] → stop_event w = false →
  thread_run t n (w, PcWhile) = (w, PcWhile)
  ∨ thread_run t n (w, PcWhile) = (w, PcFor []).
Proof.
  intros Hloop Hmacro Hs. induction n as [|n IH]; [by left|].
  unfold thread_run in *. rewrite Nat.iter_succ.
  destruct IH as [-> | ->]; simpl.
  - right. by rewrite Hs, Hmacro.
  - left. unfold _run_break. by rewrite Hloop.
Qed.

End MoreRuns.

(** X9. Without the loop flag, a thread left to itself runs the steps of
    the macro in order until the signal is found set or a step raises, then
    [release_all], and ends: normally, or with the error of the step.  The
    held set is empty at the end, and with the signal clear at the start no
    step is skipped. *)
Theorem run_once_then_sweep `{Platform} (t : MacroTool) (w : World) :
  loop t = false →
  let w1 := (for_steps w (macro t)).1 in
  let r := (for_steps w (macro t)).2 in
  (∃ n, thread_run t n (w, _run_start t)
        = ((exec w1 release_all).1, exit_of r))
  ∧ held (exec w1 release_all).1 = ∅
  ∧ (stop_event w = false →
     for_steps w (macro t) = exec w (for_each (macro t) do_step)).
Proof.
  intros Hloop w1 r. split; [|split].
  - destruct (thread_run_pass t (macro t) w w1 r) as (n1 & _ & Hn1).
    { subst w1 r. by destruct (for_steps w (macro t)). }
    unfold _run_start, _run_break in *. rewrite Hloop in *.
    destruct r as [[]|e].
    + destruct (thread_run_finally t w1 None) as [n2 Hn2].
      exists (n2 + n1)%nat. by eapply thread_run_trans.
    + destruct (thread_run_finally t w1 (Some e)) as [n2 Hn2].
      exists (n2 + n1)%nat. by eapply thread_run_trans.
  - by rewrite exec_release_all.
  - apply for_steps_clear.
Qed.

Lemma run_once_then_sweep_witness :
  let P := pynput_platform always_ok in
  let t := tool (fresh_sys [with_action "press" (key_step "a"); key_step "b"]) in
  let w := idle_world ∅ in
  loop t = false
  ∧ (∃ n, (@thread_run P t n (w, _run_start t)).2 = PcExited None)
  ∧ calls_of (trace (@exec P _ (@for_steps P w (macro t)).1 (@release_all P)).1)
    = [K_press (KeyCode_from_char "a"); K_press (KeyCode_from_char "b");
       K_release (KeyCode_from_char "b"); K_release (KeyCode_from_char "a")].
Proof.
  intros P t w. split; [done|].
  destruct (@run_once_then_sweep P t w eq_refl) as ([n Hn] & _ & _).
  split; [|vm_compute; reflexivity].
  exists n. rewrite Hn. vm_compute. reflexivity.
Defined.

(** X10. Once the signal is set, a thread left to itself starts no further
    step, with or without the loop flag: from the head of the [for] loop or
    of the [while] loop it goes to [release_all] and ends normally, and a
    step in progress that ends normally is the last one.  The only backend
    calls still made are the releases of the sweep. *)
Theorem cancelled_run_exits `{Platform} (t : MacroTool) (w : World) :
  stop_event w = true →
  (∀ rest, ∃ n, thread_run t n (w, PcFor rest)
                = ((exec w release_all).1, PcExited None))
  ∧ (∃ n, thread_run t n (w, PcWhile)
          = ((exec w release_all).1, PcExited None))
  ∧ (∀ w0 p rest, exec w0 p = (w, Ok tt) →
       ∃ n, thread_run t n (w0, PcStep p rest)
            = ((exec w release_all).1, PcExited None))
  ∧ calls_of (trace (exec w release_all).1)
    = calls_of (trace w) ++ omap release_call (elements (held w))
  ∧ held (exec w release_all).1 = ∅.
Proof.
  intros Hs. split; [intros rest; by apply thread_run_cancelled_for|].
  split; [by apply thread_run_cancelled_while|]. split.
  - intros w0 p rest Hex.
    destruct (thread_run_in_step t p rest w0 w (Ok tt) Hex) as [n1 Hn1].
    destruct (thread_run_cancelled_for t rest w Hs) as [n2 Hn2].
    exists (n2 + (1 + n1))%nat.
    eapply thread_run_trans; [|exact Hn2].
    eapply thread_run_trans; [exact Hn1|reflexivity].
  - rewrite exec_release_all. simpl. split; [|done].
    rewrite calls_of_app. simpl. by rewrite calls_of_Backend.
Qed.

Lemma cancelled_run_exits_witness :
  let P := pynput_platform always_ok in
  let t := tool (fresh_sys [key_step "a"; key_step "b"]) in
  let w := set_stop_event true (idle_world {["key:a"]}) in
  stop_event w = true
  ∧ (∃ n, @thread_run P t n (w, PcFor [key_step "b"])
          = ((@exec P _ w (@release_all P)).1, PcExited None))
  ∧ calls_of (trace (@exec P _ w (@release_all P)).1)
    = [K_release (KeyCode_from_char "a")].
Proof.
  intros P t w.
  destruct (@cancelled_run_exits P t w eq_refl) as (Hfor & _ & _ & Hcalls & _).
  split; [done|]. split; [apply Hfor|].
  etrans; [exact Hcalls|]. vm_compute. reflexivity.
Defined.

(** X11. With the loop flag and the signal clear, a pass over the macro in
    which no step raises brings the thread back to the test of the [while]
    loop with the state the pass produced: the thread never ends by itself.
    Over an empty macro it goes round forever without touching the state. *)
Theorem loop_pass_returns_to_test `{Platform} (t : MacroTool) (w : World) :
  loop t = true →
  stop_event w = false →
  (∀ w1, for_steps w (macro t) = (w1, Ok tt) →
     stop_event w1 = false
     ∧ ∃ n, (0 < n)%nat ∧ thread_run t n (w, PcWhile) = (w1, PcWhile))
  ∧ (macro t = [] →
     ∀ n, (thread_run t n (w, PcWhile)).1 = w
          ∧ is_alive (thread_run t n (w, PcWhile)).2 = true).
Proof.
  intros Hloop Hs. split.
  - intros w1 Hfor. split.
    + rewrite for_steps_clear in Hfor by done.
      pose proof (exec_no_set _ w (no_set_steps (macro t))) as Hkeep.
      rewrite Hfor in Hkeep. simpl in Hkeep. congruence.
    + destruct (thread_run_pass t (macro t) w w1 (Ok tt) Hfor)
        as (n & _ & Hn).
      unfold _run_break in Hn. rewrite Hloop in Hn.
      exists (n + 1)%nat. split; [lia|].
      eapply thread_run_trans; [|exact Hn].
      unfold thread_run. simpl. by rewrite Hs.
  - intros Hmacro n.
    by destruct (thread_run_spin t w n Hloop Hmacro Hs) as [-> | ->].
Qed.

Lemma loop_pass_returns_to_test_witness :
  let P := pynput_platform always_ok in
  let t := {| trigger_hotkey := Some "<ctrl>+q"; quit_hotkey := None;
              trigger_key := None; quit_key := None; loop := true;
              macro := [] |} in
  let w := idle_world ∅ in
  loop t = true
  ∧ stop_event w = false
  ∧ macro t = []
  ∧ (@thread_run P t 1000 (w, PcWhile)).1 = w
  ∧ is_alive (@thread_run P t 1000 (w, PcWhile)).2 = true.
Proof.
  intros P t w.
  destruct (@loop_pass_returns_to_test P t w eq_refl eq_refl) as [_ Hspin].
  exact (conj eq_refl (conj eq_refl (conj eq_refl (Hspin eq_refl 1000%nat)))).
Defined.

(** X12. [toggle] twice from an idle tool, with no thread action in between:
    the first starts a thread, the second sets the signal, and the thread
    then ends on its own without running any step: no backend call is made,
    the held set is empty and the runner is idle again. *)
Theorem toggle_twice_runs_nothing `{Platform} (s : Sys) :
  reachable s →
  is_running s = false →
  let i := length (threads s) in
  let s1 := toggle [] s in
  let s2 := toggle [] s1 in
  s1 = start s
  ∧ is_running s1 = true
  ∧ stop_event (world s2) = true
  ∧ is_running s2 = true
  ∧ ∃ n, let s3 := bg_run n i s2 in
      is_running s3 = false
      ∧ threads s3 !! i = Some (PcExited None)
      ∧ held (world s3) = ∅
      ∧ calls_of (trace (world s3)) = calls_of (trace (world s)).
Proof.
  intros Hreach Hrun i s1 s2.
  pose proof (idle_held_empty s (sys_inv_reachable s Hreach) Hrun) as Hempty.
  assert (s1 = start s) as Hs1.
  { subst s1. unfold toggle. by rewrite Hrun. }
  assert (is_running s1 = true) as Hrun1.
  { rewrite Hs1. apply is_running_start. }
  assert (s2 = set_world
            (extend [ReleaseAll []]
               (set_held ∅ (set_stop_event true (world s1)))) s1) as Hs2.
  { subst s2. unfold toggle. rewrite Hrun1. unfold stop_sys.
    rewrite run_ctl_nil, exec_stop. simpl.
    rewrite Hs1. unfold start. rewrite Hrun. simpl.
    by rewrite Hempty, elements_empty. }
  split; [done|]. split; [done|]. split; [by rewrite Hs2|].
  split; [by rewrite Hs2|].
  assert (threads s2 !! i = Some (_run_start (tool s))) as Hi.
  { rewrite Hs2, Hs1. unfold start. rewrite Hrun. simpl.
    rewrite lookup_app_r by (subst i; lia). subst i.
    by rewrite Nat.sub_diag. }
  assert (thread s2 = Some i) as Hth.
  { rewrite Hs2, Hs1. unfold start. by rewrite Hrun. }
  assert (tool s2 = tool s) as Htool.
  { rewrite Hs2, Hs1. unfold start. by rewrite Hrun. }
  assert (stop_event (world s2) = true) as Hset by (by rewrite Hs2).
  assert (∃ n, thread_run (tool s2) n (world s2, _run_start (tool s))
               = ((exec (world s2) release_all).1, PcExited None))
    as [n Hn].
  { unfold _run_start. destruct (loop (tool s)).
    - by apply thread_run_cancelled_while.
    - by apply thread_run_cancelled_for. }
  exists n. cbv zeta. rewrite (bg_run_thread n i s2 _ Hi), Hn.
  pose proof (lookup_lt_Some _ _ _ Hi) as Hlt.
  rewrite exec_release_all. simpl.
  split; [|split; [by rewrite list_lookup_insert_eq|split; [done|]]].
  - unfold is_running. simpl. by rewrite Hth, list_lookup_insert_eq.
  - rewrite Hs2. simpl. rewrite elements_empty. simpl.
    rewrite Hs1. unfold start. rewrite Hrun. simpl.
    rewrite !calls_of_app. simpl. by rewrite !app_nil_r.
Qed.

Lemma toggle_twice_runs_nothing_witness :
  let P := pynput_platform always_ok in
  let s := fresh_sys [key_step "a"] in
  @reachable P s
  ∧ is_running s = false
  ∧ ∃ n, let s3 := @bg_run P n 0 (@toggle P [] (@toggle P [] s)) in
      is_running s3 = false
      ∧ held (world s3) = ∅
      ∧ calls_of (trace (world s3)) = calls_of (trace (world s)).
Proof.
  intros P s.
  assert (@reachable P s) as Hreach.
  { exists (hotkey_config [key_step "a"]), s, [].
    split; [vm_compute; reflexivity|reflexivity]. }
  destruct (@toggle_twice_runs_nothing P s Hreach eq_refl)
    as (_ & _ & _ & _ & n & H1 & _ & H3 & H4).
  split; [exact Hreach|]. split; [done|].
  exists n. exact (conj H1 (conj H3 H4)).
Defined.

(** ** Names of keys and buttons *)

(** X13. [to_pdi_button] accepts a name exactly when, stripped and in lower
    case, it is left, right or middle, and returns that normal form, which
    it maps to itself; every other name raises.  On the pynput path a name
    that [to_pdi_button] rejects is taken for the middle button. *)
Theorem to_pdi_button_outcome (btn : string) :
  match to_pdi_button btn with
  | Ok b =>
      b = PyStr.lower (PyStr.strip btn)
      ∧ (b = "left" ∨ b = "right" ∨ b = "middle")
      ∧ to_pdi_button b = Ok b
  | Err e =>
      e = ValueError BadButton
      ∧ ¬ (PyStr.lower (PyStr.strip btn) = "left"
           ∨ PyStr.lower (PyStr.strip btn) = "right"
           ∨ PyStr.lower (PyStr.strip btn) = "middle")
      ∧ pynput_button btn = Button_middle
  end.
Proof.
  unfold to_pdi_button, to_pdi_button_opt.
  destruct (decide (_ ∨ _ ∨ _)) as [Hin|Hout].
  - split; [done|]. split; [done|].
    by destruct Hin as [-> | [-> | ->]].
  - split; [done|]. split; [done|].
    unfold pynput_button.
    destruct (decide (btn = "left")) as [->|_];
      [exfalso; apply Hout; by left|].
    destruct (decide (btn = "right")) as [->|_];
      [exfalso; apply Hout; right; by left|].
    done.
Qed.

(** ** Construction and startup *)

Section Startup.
Context `{Platform}.







End Startup.





(** X16. When [run_forever] listens for hotkeys, the mapping it hands to
    [GlobalHotKeys] binds the trigger hotkey to [toggle] unless the quit
    hotkey is the same string, binds a non-empty quit hotkey to
    [request_quit], and binds nothing else: with equal hotkeys [toggle]
    cannot be reached. *)
Theorem hotkey_mapping_bindings (t : MacroTool) (th : string) :
  trigger_hotkey t = Some th →
  th ≠ "" →
  ∃ mapping,
    run_forever t = inr (GlobalHotKeys mapping)
    ∧ ∀ k c,
        mapping !! k = Some c ↔
        (k = th ∧ c = Toggle ∧ quit_hotkey t ≠ Some th)
        ∨ (k ≠ "" ∧ quit_hotkey t = Some k ∧ c = RequestQuit).
Proof.
  intros Hth Hne. unfold run_forever. rewrite Hth. unfold truthy.
  rewrite bool_decide_eq_true_2 by done. eexists. split; [done|].
  intros k c.
  destruct (quit_hotkey t) as [qh|]; [case_bool_decide as Hq|]; simpl.
  - rewrite lookup_insert_Some, lookup_singleton_Some. split.
    + intros [[<- <-]|[Hk [<- <-]]].
      * right. done.
      * left. split; [done|]. split; [done|]. intros [= ->]. done.
    + intros [(-> & -> & Hd)|(_ & [= ->] & ->)].
      * right. split; [|done]. intros ->. done.
      * left. done.
  - rewrite lookup_singleton_Some. subst qh. split.
    + intros [<- <-]. left. split; [done|]. split; [done|].
      intros [= Heq]. by destruct Hne.
    + intros [(-> & -> & _)|(Hk & [= <-] & _)]; done.
  - rewrite lookup_singleton_Some. split.
    + intros [<- <-]. by left.
    + intros [(-> & -> & _)|(_ & ? & _)]; done.
Qed.

Lemma hotkey_mapping_bindings_witness :
  let t :=
    {| trigger_hotkey := Some "<ctrl>+q"; quit_hotkey := Some "<ctrl>+q";
       trigger_key := None; quit_key := None; loop := false; macro := [] |} in
  ∃ mapping,
    run_forever t = inr (GlobalHotKeys mapping)
    ∧ mapping !! "<ctrl>+q" = Some RequestQuit
    ∧ ∀ k, mapping !! k ≠ Some Toggle.
Proof.
  intros t.
  destruct (hotkey_mapping_bindings t "<ctrl>+q" eq_refl) as (m & Hrun & Hm);
    [done|].
  exists m. split; [exact Hrun|]. split.
  - apply Hm. right. by repeat split.
  - intros k Hk. apply Hm in Hk as [(_ & _ & Hd)|(_ & _ & ?)]; [|done].
    by apply Hd.
Defined.

(** ** The single-key listener *)

Section Listener.
Context `{Platform} `{KeyEquality}.

Lemma bg_steps_tool (tids : list nat) (s : Sys) :
  tool (bg_steps tids s) = tool s.
Proof.
  revert s. induction tids as [|i tids IH]; intros s; [done|].
  unfold bg_steps in *. simpl. rewrite IH. apply bg_step_frame.
Qed.

Lemma run_ctl_tool {A : Type} (p : Prog A) (sched : list (list nat))
    (s : Sys) :
  tool (run_ctl sched s p).1 = tool s.
Proof.
  revert sched s. induction p as [a|e|X e k IH]; intros sched s; simpl;
    [apply bg_steps_tool..|].
  destruct (handle _ e) as [w' x]. rewrite IH. simpl. apply bg_steps_tool.
Qed.

Lemma toggle_tool (sched : list (list nat)) (s : Sys) :
  tool (toggle sched s) = tool s.
Proof.
  unfold toggle, stop_sys, start.
  destruct (is_running s); [apply run_ctl_tool|].
  case_match; simpl; apply bg_steps_tool.
Qed.

Lemma press_records_key (sched : list (list nat)) (k : ListenerKey) (a : App) :
  _down (_on_press_single sched k a).1 = _down a ∪ {[_key_id k]}.
Proof.
  unfold _on_press_single. case_decide as Hin.
  - simpl. rewrite (comm_L (∪)). symmetry. apply subseteq_union_1_L.
    by apply singleton_subseteq_l.
  - by repeat case_match.
Qed.

Lemma press_sys_cases (sched : list (list nat)) (k : ListenerKey) (a : App) :
  sys (_on_press_single sched k a).1 = sys a
  ∨ sys (_on_press_single sched k a).1 = sys_step (sys a) (EvToggle sched)
  ∨ sys (_on_press_single sched k a).1 = sys_step (sys a) (EvQuit sched).
Proof.
  unfold _on_press_single. case_decide; [by left|].
  repeat case_match; simpl; auto.
Qed.

Lemma app_step_reachable (a : App) (ev : KeyEvent) :
  reachable (sys a) → reachable (sys (app_step a ev)).
Proof.
  intros Hr. destruct ev as [sched k|k|i]; simpl.
  - destruct (press_sys_cases sched k a) as [->|[->| ->]];
      [done|by apply reachable_sys_step..].
  - done.
  - by apply (reachable_sys_step _ (EvBg i)).
Qed.

Lemma listen_reachable (config : Config) (s0 : Sys) (evs : list KeyEvent) :
  MacroTool_init config = Ok s0 → reachable (sys (listen s0 evs)).
Proof.
  intros Hinit. unfold listen.
  assert (reachable (sys {| sys := s0; _down := ∅ |})) as Hr
    by (by eapply reachable_init).
  revert Hr. generalize {| sys := s0; _down := ∅ |}.
  induction evs as [|ev evs IH]; intros a Hr; [done|].
  simpl. by apply IH, app_step_reachable.
Qed.

Lemma listen_tool (s0 : Sys) (evs : list KeyEvent) :
  tool (sys (listen s0 evs)) = tool s0.
Proof.
  unfold listen.
  change (tool s0) with (tool (sys {| sys := s0; _down := ∅ |})).
  generalize {| sys := s0; _down := ∅ |}.
  induction evs as [|ev evs IH]; intros a; [done|].
  simpl. rewrite IH. destruct ev as [sched k|k|i]; simpl.
  - destruct (press_sys_cases sched k a) as [->|[->| ->]]; simpl;
      [done|apply toggle_tool|apply run_ctl_tool].
  - done.
  - apply bg_step_frame.
Qed.

End Listener.

(** X17. While a key is recorded as down, the press of any key with the
    same identifier is ignored: nothing changes and [None] is returned.
    This covers the auto-repeat of a held key, and also two different keys
    whose identifiers agree. *)
Theorem press_while_down_is_ignored `{Platform} `{KeyEquality}
    (sched sched' : list (list nat)) (k k' : ListenerKey) (a : App) :
  _key_id k' = _key_id k →
  let a1 := (_on_press_single sched k a).1 in
  _on_press_single sched' k' a1 = (a1, None).
Proof.
  intros Hid a1.
  assert (_key_id k' ∈ _down a1) as Hin.
  { unfold a1. rewrite press_records_key, Hid.
    apply elem_of_union_r, elem_of_singleton_2. done. }
  unfold _on_press_single at 1. by rewrite decide_True.
Qed.

Lemma press_while_down_is_ignored_witness :
  let P := pynput_platform always_ok in
  let a :=
    {| sys :=
         {| tool := {| trigger_hotkey := None; quit_hotkey := None;
                       trigger_key := Some (Key "ctrl");
                       quit_key := Some (KeyCode_from_char "q");
                       loop := false; macro := [] |};
            world := {| stop_event := false; held := ∅; trace := [] |};
            threads := [];
            thread := None |};
       _down := ∅ |} in
  let a1 := (@_on_press_single P by_identifier [] (LKey "ctrl") a).1 in
  @_on_press_single P by_identifier [] (LKey "ctrl") a1 = (a1, None).
Proof.
  intros P a.
  exact (@press_while_down_is_ignored P by_identifier [] [] (LKey "ctrl")
           (LKey "ctrl") a eq_refl).
Defined.

(** X18. Releasing a key only removes its identifier from the keys recorded
    as down, so its next press is acted on again; with the same key as
    trigger, press, release, press toggles twice. *)
Theorem release_rearms_the_key `{Platform} `{KeyEquality}
    (sched sched' : list (list nat)) (k : ListenerKey) (tk : KeyLike)
    (a : App) :
  _key_id k ∉ _down a →
  trigger_key (tool (sys a)) = Some tk →
  key_matches k tk = true →
  let a1 := (_on_press_single sched k a).1 in
  let a2 := _on_release_single k a1 in
  sys a1 = toggle sched (sys a)
  ∧ sys a2 = sys a1
  ∧ _down a2 = _down a
  ∧ sys (_on_press_single sched' k a2).1 = toggle sched' (toggle sched (sys a)).
Proof.
  intros Hout Htk Hm a1 a2.
  pose proof (toggle_tool sched (sys a)) as Htool.
  assert (a1 = {| sys := toggle sched (sys a);
                  _down := _down a ∪ {[_key_id k]} |}) as Ha1.
  { unfold a1, _on_press_single. rewrite decide_False by done.
    by rewrite Htk, Hm. }
  assert (_down a2 = _down a) as Hdown.
  { unfold a2, _on_release_single. rewrite Ha1. simpl.
    apply leibniz_equiv. rewrite difference_union_distr_l, difference_diag.
    rewrite (right_id ∅ (∪)). apply difference_disjoint.
    by apply disjoint_singleton_r. }
  split; [by rewrite Ha1|]. split; [done|]. split; [done|].
  unfold _on_press_single. rewrite Hdown, decide_False by done.
  unfold a2 at 1 2. simpl. rewrite Ha1. simpl. rewrite Htool, Htk, Hm. done.
Qed.

Lemma release_rearms_the_key_witness :
  let P := pynput_platform always_ok in
  let a :=
    {| sys :=
         {| tool := {| trigger_hotkey := None; quit_hotkey := None;
                       trigger_key := Some (Key "ctrl");
                       quit_key := Some (KeyCode_from_char "q");
                       loop := false; macro := [] |};
            world := {| stop_event := false; held := ∅; trace := [] |};
            threads := [];
            thread := None |};
       _down := ∅ |} in
  let k := LKey "ctrl" in
  let a2 :=
    _on_release_single k (@_on_press_single P by_identifier [] k a).1 in
  (_key_id k ∉ _down a)
  ∧ @key_matches by_identifier k (Key "ctrl") = true
  ∧ _down a2 = _down a
  ∧ sys (@_on_press_single P by_identifier [] k a2).1
    = @toggle P [] (@toggle P [] (sys a)).
Proof.
  intros P a k a2.
  assert (_key_id k ∉ _down a) as Hout by apply not_elem_of_empty.
  assert (@key_matches by_identifier k (Key "ctrl") = true) as Hm
    by (vm_compute; reflexivity).
  destruct (@release_rearms_the_key P by_identifier [] [] k (Key "ctrl") a
              Hout eq_refl Hm) as (_ & _ & Hdown & Hsys).
  exact (conj Hout (conj Hm (conj Hdown Hsys))).
Defined.

(** X19. The press callback returns [False], which ends the listener, only
    for a key that was not recorded as down, that does not match the
    trigger key and that matches the quit key; the tool is then the one
    [request_quit] leaves, with the signal set whatever the threads did
    meanwhile.  In every other case it returns [None]: a key configured as
    trigger and as quit only toggles. *)
Theorem listener_ends_only_on_quit_key `{Platform} `{KeyEquality}
    (sched : list (list nat)) (k : ListenerKey) (a : App) :
  let r := _on_press_single sched k a in
  r.2 = None
  ∨ (r.2 = Some false
     ∧ (_key_id k ∉ _down a)
     ∧ (∀ tk, trigger_key (tool (sys a)) = Some tk → key_matches k tk = false)
     ∧ (∃ qk, quit_key (tool (sys a)) = Some qk ∧ key_matches k qk = true)
     ∧ sys r.1 = (request_quit sched (sys a)).1
     ∧ stop_event (world (sys r.1)) = true).
Proof.
  unfold _on_press_single. case_decide as Hin; [by left|].
  destruct (trigger_key (tool (sys a))) as [tk|] eqn:Htk.
  - destruct (key_matches k tk) eqn:Hm; [by left|].
    destruct (quit_key (tool (sys a))) as [qk|] eqn:Hqk; [|by left].
    destruct (key_matches k qk) eqn:Hq; [|by left].
    right. simpl. split; [done|]. split; [done|].
    split; [by intros ? [= <-]|]. split; [by exists qk|]. split; [done|].
    apply stop_sys_any_schedule.
  - destruct (quit_key (tool (sys a))) as [qk|] eqn:Hqk; [|by left].
    destruct (key_matches k qk) eqn:Hq; [|by left].
    right. simpl. split; [done|]. split; [done|].
    split; [done|]. split; [by exists qk|]. split; [done|].
    apply stop_sys_any_schedule.
Qed.

Lemma listener_ends_only_on_quit_key_witness :
  let P := pynput_platform always_ok in
  let a :=
    {| sys :=
         {| tool := {| trigger_hotkey := None; quit_hotkey := None;
                       trigger_key := Some (Key "ctrl");
                       quit_key := Some (Key "ctrl");
                       loop := false; macro := [] |};
            world := {| stop_event := false; held := ∅; trace := [] |};
            threads := [];
            thread := None |};
       _down := ∅ |} in
  (@_on_press_single P by_identifier [] (LKey "ctrl") a).2 = None.
Proof.
  intros P a.
  destruct (@listener_ends_only_on_quit_key P by_identifier [] (LKey "ctrl") a)
    as [Hnone|(_ & _ & Htrig & _)].
  - exact Hnone.
  - specialize (Htrig (Key "ctrl") eq_refl). vm_compute in Htrig.
    discriminate Htrig.
Defined.

(** X20. Whatever keys the single-key listener delivers to a tool that was
    just built, and however the threads interleave with its callbacks, the
    configuration of the tool stays the same, at most one activity is alive
    (exactly one while [is_running]), no token is held while the tool is not
    running, and every held token is one that [release_all] has a release
    call for. *)
Theorem listener_keeps_invariants `{Platform} `{KeyEquality}
    (config : Config) (s0 : Sys) (evs : list KeyEvent) :
  MacroTool_init config = Ok s0 →
  let s := sys (listen s0 evs) in
  tool s = tool s0
  ∧ length (activities s) = (if is_running s then 1 else 0)%nat
  ∧ (is_running s = false → held (world s) = ∅)
  ∧ ∀ t, t ∈ held (world s) → is_Some (release_call t).
Proof.
  intros Hinit s.
  pose proof (listen_reachable config s0 evs Hinit) as Hr. fold s in Hr.
  pose proof (sys_inv_reachable s Hr) as Hinv.
  split; [|split; [|split]].
  - apply listen_tool.
  - apply one_thread_activities, Hinv.
  - by apply idle_held_empty.
  - apply (rel_inv_reachable s Hr).
Qed.

Lemma listener_keeps_invariants_witness :
  let P := pynput_platform always_ok in
  let config := single_key_config "Key.ctrl" "q" [key_step "a"] in
  let s0 :=
    {| tool := {| trigger_hotkey := None; quit_hotkey := None;
                  trigger_key := Some (Key "ctrl");
                  quit_key := Some (KeyCode_from_char "q");
                  loop := false; macro := [key_step "a"] |};
       world := {| stop_event := false; held := ∅; trace := [] |};
       threads := [];
       thread := None |} in
  let evs :=
    [KeyDown [] (LKey "ctrl"); Background 0%nat; Background 0%nat; KeyUp (LKey "ctrl");
     KeyDown [[0%nat]] (LKeyCode (Some "q"))] in
  let s := sys (@listen P by_identifier s0 evs) in
  @MacroTool_init P config = Ok s0
  ∧ tool s = tool s0
  ∧ (is_running s = false → held (world s) = ∅).
Proof.
  intros P config s0 evs s.
  assert (@MacroTool_init P config = Ok s0) as Hinit
    by (vm_compute; reflexivity).
  destruct (@listener_keeps_invariants P by_identifier config s0 evs Hinit)
    as (Htool & _ & Hidle & _).
  exact (conj Hinit (conj Htool Hidle)).
Defined.

(** ** Spelling of key and button names *)

Section Spelling.

Lemma list_of_rev_app (s1 s2 : string) :
  list_ascii_of_string (String.rev_app s1 s2)
  = rev (list_ascii_of_string s1) ++ list_ascii_of_string s2.
Proof.
  revert s2. induction s1 as [|a s1 IH]; intros s2; [done|].
  simpl. rewrite IH. simpl. by rewrite <- app_assoc.
Qed.

Lemma list_of_rev (s : string) :
  list_ascii_of_string (String.rev s) = rev (list_ascii_of_string s).
Proof. unfold String.rev. rewrite list_of_rev_app. simpl. apply app_nil_r. Qed.

Lemma list_of_lstrip (s : string) :
  list_ascii_of_string (PyStr.lstrip s) = lstrip_list (list_ascii_of_string s).
Proof.
  induction s as [|a s IH]; [done|]. simpl. by destruct (PyStr.is_space a).
Qed.

Lemma list_of_strip (s : string) :
  list_ascii_of_string (PyStr.strip s)
  = rev (lstrip_list (rev (lstrip_list (list_ascii_of_string s)))).
Proof.
  unfold PyStr.strip.
  by rewrite list_of_rev, list_of_lstrip, list_of_rev, list_of_lstrip.
Qed.

Lemma lstrip_list_clean (l : list ascii) : clean (lstrip_list l).
Proof.
  induction l as [|a l IH]; [done|]. simpl.
  by destruct (PyStr.is_space a) eqn:Ha.
Qed.

Lemma lstrip_list_id (l : list ascii) : clean l → lstrip_list l = l.
Proof. destruct l as [|a l]; [done|]. simpl. by intros ->. Qed.

Lemma lstrip_list_suffix (l : list ascii) :
  ∃ pre, l = pre ++ lstrip_list l.
Proof.
  induction l as [|a l [pre IH]]; [by exists []|]. simpl.
  destruct (PyStr.is_space a); [|by exists []].
  exists (a :: pre). simpl. by rewrite <- IH.
Qed.

Lemma clean_rev_lstrip (t : list ascii) :
  clean t → clean (rev (lstrip_list (rev t))).
Proof.
  intros Ht. destruct (lstrip_list_suffix (rev t)) as [pre Hpre].
  assert (t = rev (lstrip_list (rev t)) ++ rev pre) as Heq.
  { by rewrite <- rev_app_distr, <- Hpre, rev_involutive. }
  destruct (rev (lstrip_list (rev t))) as [|a u]; [done|].
  rewrite Heq in Ht. exact Ht.
Qed.

Lemma strip_list_idemp (l : list ascii) :
  let strip l := rev (lstrip_list (rev (lstrip_list l))) in
  strip (strip l) = strip l.
Proof.
  intros strip. unfold strip.
  rewrite (lstrip_list_id (rev _))
    by apply clean_rev_lstrip, lstrip_list_clean.
  rewrite rev_involutive.
  apply lstrip_list_id, clean_rev_lstrip, lstrip_list_clean.
Qed.

Lemma strip_idemp (s : string) : PyStr.strip (PyStr.strip s) = PyStr.strip s.
Proof.
  rewrite <- (string_of_list_ascii_of_string (PyStr.strip (PyStr.strip s))).
  rewrite <- (string_of_list_ascii_of_string (PyStr.strip s)) at 2.
  f_equal. rewrite (list_of_strip (PyStr.strip s)), !list_of_strip.
  apply strip_list_idemp.
Qed.

End Spelling.

(** X21. White space around a key or button name never changes the key or
    button it is resolved to: [parse_key_pynput], [to_pdi_key] and
    [to_pdi_button] give the same result on a name and on the stripped
    name.  The hold token keeps the name as written, so the two spellings
    have different tokens. *)
Theorem names_resolved_modulo_spaces `{Platform} (raw : string) :
  parse_key_pynput (PyStr.strip raw) = parse_key_pynput raw
  ∧ to_pdi_key (PyStr.strip raw) = to_pdi_key raw
  ∧ to_pdi_button (PyStr.strip raw) = to_pdi_button raw
  ∧ (PyStr.strip raw ≠ raw →
     key_token (PyStr.strip raw) ≠ key_token raw
     ∧ mouse_token (PyStr.strip raw) ≠ mouse_token raw).
Proof.
  unfold parse_key_pynput, to_pdi_key, to_pdi_button, to_pdi_button_opt.
  rewrite !strip_idemp. split; [done|]. split; [done|]. split; [done|].
  intros Hne. unfold key_token, mouse_token.
  split; intros Heq; apply Hne; by simplify_eq.
Qed.

Lemma names_resolved_modulo_spaces_witness :
  let P := pynput_platform always_ok in
  @parse_key_pynput P " Key.ctrl " = Ok (Key "ctrl")
  ∧ key_token (PyStr.strip " Key.ctrl ") ≠ key_token " Key.ctrl ".
Proof.
  intros P.
  destruct (@names_resolved_modulo_spaces P " Key.ctrl ")
    as (Hparse & _ & _ & Htok).
  split.
  - rewrite <- Hparse. vm_compute. reflexivity.
  - apply Htok. vm_compute. discriminate.
Defined.

(** X22. A key or button pressed under one spelling and released under
    another that names the same key or button: the release call is made,
    but the token of the press stays in the held set, and the next sweep
    releases the same key or button once more. *)
Theorem other_spelling_leaves_token `{Platform} (step step' : Step)
    (w : World) (c c' : Call) (token token' : string) :
  stop_event w = false →
  held w = ∅ →
  step_type step = Some "key" ∨ step_type step = Some "mouse_button" →
  step_type step' = Some "key" ∨ step_type step' = Some "mouse_button" →
  step_action step = Some "press" →
  step_action step' = Some "release" →
  press_call step = Ok (c, token) →
  release_step_call step' = Ok (c', token') →
  release_of c = Some c' →
  token' ≠ token →
  backend_ok (trace w) c = true →
  backend_ok (trace w ++ [Backend c; MarkDown token]) c' = true →
  let w2 := (exec (exec w (do_step step)).1 (do_step step')).1 in
  held w2 = {[token]}
  ∧ trace w2 = trace w ++ [Backend c; MarkDown token; Backend c'; MarkUp token']
  ∧ trace (exec w2 release_all).1
    = trace w2 ++ [ReleaseAll [token]; Backend c'].
Proof.
  intros Hs Hempty Ht Ht' Ha Ha' Hpress Hrel Hundo Hne Hok Hok'.
  destruct (press_release_calls step c token Ht Hpress)
    as (c0 & Hc0 & _ & Hcall).
  assert (c0 = c') as -> by congruence.
  cbv zeta. rewrite exec_release_all.
  rewrite (exec_press_step step w Hs Ha Ht), Hpress, Hok. cbn [fst].
  set (w1 := extend [Backend c; MarkDown token]
               (set_held (held w ∪ {[token]}) w)).
  assert (stop_event w1 = false) as Hs1 by exact Hs.
  rewrite (exec_release_step step' w1 Hs1 Ha' Ht'), Hrel.
  subst w1. simpl. rewrite Hok'. cbn [fst].
  assert ((held w ∪ {[token]}) ∖ {[token']} = ({[token]} : gset string))
    as Hheld.
  { rewrite Hempty, (left_id_L ∅ (∪)). apply difference_disjoint_L.
    by apply disjoint_singleton_r, not_elem_of_singleton. }
  rewrite Hheld. cbn [held trace extend set_held].
  split; [done|]. split; [by rewrite <- app_assoc|].
  rewrite elements_singleton. simpl. by rewrite Hcall.
Qed.

Lemma other_spelling_leaves_token_witness :
  let P := pdi_platform always_ok in
  let step := with_action "press" (key_step " a") in
  let step' := with_action "release" (key_step "a") in
  let w := idle_world ∅ in
  let w2 := (@exec P _ (@exec P _ w (@do_step P step)).1 (@do_step P step')).1 in
  @press_call P step = Ok (PDI_keyDown "a", "key: a")
  ∧ @release_step_call P step' = Ok (PDI_keyUp "a", "key:a")
  ∧ held w2 = {["key: a"]}
  ∧ trace (@exec P _ w2 (@release_all P)).1
    = trace w2 ++ [ReleaseAll ["key: a"]; Backend (PDI_keyUp "a")].
Proof.
  intros P step step' w w2.
  assert (@press_call P step = Ok (PDI_keyDown "a", "key: a")) as Hpress
    by (vm_compute; reflexivity).
  assert (@release_step_call P step' = Ok (PDI_keyUp "a", "key:a")) as Hrel
    by (vm_compute; reflexivity).
  assert ("key:a" ≠ "key: a") as Hne by discriminate.
  destruct (@other_spelling_leaves_token P step step' w _ _ _ _ eq_refl
              eq_refl (or_introl eq_refl) (or_introl eq_refl) eq_refl eq_refl
              Hpress Hrel eq_refl Hne eq_refl eq_refl) as (Hheld & _ & Hsweep).
  exact (conj Hpress (conj Hrel (conj Hheld Hsweep))).
Defined.
